(** * The devtools Backend: identity registry, node store and path accessor

    A shallow embedding of [src/backend/Backend.js].  JavaScript objects live
    in a heap of cells addressed by reference, so that aliasing between the
    snapshot kept in the Node Store, the message sent outward and the objects
    reached by [setIn] is the one the program has.  Every method of the
    class is a computation in a state-and-exception monad over the Backend
    fields, the heap, and the traces of what the program emits, logs and
    calls in its host.

    Of the wiring of the channel ([addBridge]) the three selection handlers
    are modelled; left out are the handlers that only forward a command to
    a method below or an event to the channel, [on] and [off], and the
    capability probe of the constructor. *)

From stdpp Require Import gmap strings list fin_maps.
From Stdlib Require Import DecimalString.

Local Open Scope Z_scope.
Local Open Scope string_scope.

(** ** Values

    Numbers are the integers among the JavaScript numbers.  A string is the
    sequence of its code units, those below 256.  A function is a host
    function, known by a tag only.  Inherited members (those of
    [Object.prototype], [Array.prototype], ...) are not part of the model,
    with one exception: an array has its [map] method (see [has_map]). *)

Abbreviation loc := nat (only parsing).

Inductive val :=
  | VUndef
  | VNull
  | VBool (b : bool)
  | VNum (n : Z)
  | VStr (s : string)
  | VFun (f : nat)
  | VRef (l : loc).

Global Instance val_eq_dec : EqDecision val.
Proof. solve_decision. Defined.

Definition val_enc (v : val) : unit + unit + bool + Z + string + nat + nat :=
  match v with
  | VUndef => inl (inl (inl (inl (inl (inl ())))))
  | VNull => inl (inl (inl (inl (inl (inr ())))))
  | VBool b => inl (inl (inl (inl (inr b))))
  | VNum n => inl (inl (inl (inr n)))
  | VStr s => inl (inl (inr s))
  | VFun f => inl (inr f)
  | VRef l => inr l
  end.

Definition val_dec (x : unit + unit + bool + Z + string + nat + nat) : val :=
  match x with
  | inl (inl (inl (inl (inl (inl _))))) => VUndef
  | inl (inl (inl (inl (inl (inr _))))) => VNull
  | inl (inl (inl (inl (inr b)))) => VBool b
  | inl (inl (inl (inr n))) => VNum n
  | inl (inl (inr s)) => VStr s
  | inl (inr f) => VFun f
  | inr l => VRef l
  end.

Global Instance val_countable : Countable val.
Proof. refine (inj_countable' val_enc val_dec _). by intros []. Defined.

(** [if (v)], [!v], [v && w] *)
Definition truthy (v : val) : bool :=
  match v with
  | VUndef | VNull => false
  | VBool b => b
  | VNum n => negb (Z.eqb n 0)
  | VStr s => negb (String.eqb s "")
  | VFun _ | VRef _ => true
  end.

(** ['object' === typeof v]: true of [null] too *)
Definition typeof_object (v : val) : bool :=
  match v with
  | VNull | VRef _ => true
  | _ => false
  end.

Definition nullish (v : val) : bool :=
  match v with
  | VUndef | VNull => true
  | _ => false
  end.

(** ** Heap cells: plain objects and arrays

    An array has its elements and the other properties it has of its own.
    The elements are dense: a hole reads as [undefined] and is kept as
    such. *)

Inductive cell :=
  | CObj (props : gmap string val)
  | CArr (elems : list val) (named : gmap string val).

(** The integer a property key spells, if it is the canonical decimal
    spelling of one. *)
Definition index_of_key (k : string) : option nat :=
  match NilEmpty.uint_of_string k with
  | Some u =>
      let i := Nat.of_uint u in
      if String.eqb (NilEmpty.string_of_uint (Nat.to_uint i)) k
      then Some i else None
  | None => None
  end.

(** The keys that are array indices: the canonical spellings of the
    integers below [2^32 - 1]. *)
Definition array_index (k : string) : option nat :=
  match index_of_key k with
  | Some i => if Z.ltb (Z.of_nat i) 4294967295 then Some i else None
  | None => None
  end.

(** [c[k]] for an object or array [c] *)
Definition cell_get (c : cell) (k : string) : val :=
  match c with
  | CObj props => default VUndef (props !! k)
  | CArr elems named =>
      match array_index k with
      | Some i => default VUndef (elems !! i)
      | None =>
          if String.eqb k "length" then VNum (Z.of_nat (length elems))
          else default VUndef (named !! k)
      end
  end.

(** [elems[i] = v]: the element is replaced, or the array grows up to [i];
    the holes left between the old end and [i] read as [undefined]. *)
Definition write_index (i : nat) (v : val) (elems : list val) : list val :=
  if decide (i < length elems)%nat then <[i := v]> elems
  else (elems ++ replicate (i - length elems) VUndef ++ [v])%list.

(** [c[k] = v].  The key is taken as a property of [c] itself: an element
    of an array if it is an array index, else a named property.  So does
    the code for every key but two: [__proto__], which [Object.prototype]
    answers with a setter, and the [length] of an array.  A write to the
    [length] of an array is not modelled ([None]); [__proto__] is written
    like any other key, and the statements about what a write stores leave
    that key out (see [own_write]). *)
Definition cell_set (c : cell) (k : string) (v : val) : option cell :=
  match c with
  | CObj props => Some (CObj (<[k := v]> props))
  | CArr elems named =>
      match array_index k with
      | Some i => Some (CArr (write_index i v elems) named)
      | None =>
          if String.eqb k "length" then None
          else Some (CArr elems (<[k := v]> named))
      end
  end.

(** The keys whose reading [c[k] = v] changes: [k], and the [length] of an
    array that grows. *)
Definition touched (c : cell) (k : string) : list string :=
  match c with
  | CObj _ => [k]
  | CArr elems _ =>
      match array_index k with
      | Some i => if decide (i < length elems)%nat then [k] else [k; "length"]
      | None => [k]
      end
  end.

(** The writes [c[k] = v] that store [v] as it is in a property of [c]
    itself: every key but [__proto__] and, on an array, [length]. *)
Definition own_write (c : cell) (k : string) : Prop :=
  match c with
  | CObj _ => k ≠ "__proto__"
  | CArr _ _ => k ≠ "__proto__" ∧ k ≠ "length"
  end.

(** [delete c[k]] *)
Definition cell_delete (c : cell) (k : string) : option cell :=
  match c with
  | CObj props => Some (CObj (delete k props))
  | CArr _ _ => None
  end.

(** [str[k]]: a string has its [length] and its characters, by index. *)
Definition string_get (str : string) (k : string) : val :=
  match index_of_key k with
  | Some i =>
      match String.get i str with
      | Some a => VStr (String a EmptyString)
      | None => VUndef
      end
  | None =>
      if String.eqb k "length" then VNum (Z.of_nat (String.length str))
      else VUndef
  end.

(** [v[k]] for a value [v] that is neither [undefined] nor [null]: the
    property that [v] has of its own by this name, if any.  What [v] would
    inherit is not looked up: a key that names a member of a built-in
    prototype ([constructor], [toString], [__proto__], ...) reads as
    [undefined] unless [v] has a property of its own by that name. *)
Definition prop_get (h : gmap loc cell) (v : val) (k : string) : val :=
  match v with
  | VRef l =>
      match h !! l with
      | Some c => cell_get c k
      | None => VUndef
      end
  | VStr str => string_get str k
  | _ => VUndef
  end.

(** [v.map] is there: every array has it, unless a property of its own by
    that name hides it; a plain object only as a property of its own. *)
Definition has_map (h : gmap loc cell) (v : val) : bool :=
  match v with
  | VRef l =>
      match h !! l with
      | Some (CArr _ named) =>
          match named !! "map" with
          | Some m => truthy m
          | None => true
          end
      | Some (CObj props) => truthy (default VUndef (props !! "map"))
      | None => false
      end
  | _ => false
  end.

(** ** The Path Accessor, as a function of the heap

    [path.reduce((obj, attr) => obj ? obj[attr] : null, obj)] *)
Definition reduce_step (h : gmap loc cell) (obj : val) (attr : string) : val :=
  if truthy obj then prop_get h obj attr else VNull.

Definition walk (h : gmap loc cell) (obj : val) (path : list string) : val :=
  foldl (reduce_step h) obj path.

(** The slots [(container, key)] read by [walk], in order. *)
Fixpoint reads (h : gmap loc cell) (obj : val) (path : list string)
  : list (val * string) :=
  match path with
  | [] => []
  | attr :: rest => (obj, attr) :: reads h (reduce_step h obj attr) rest
  end.

(** ** The state

    The fields of [class Backend] ([comps], [ids], [nodes], [roots],
    [reactInternals], and [global] with its [$r] and [$tmp] slots), the heap,
    and what the program does to its surroundings: the events it emits, the
    lines it writes to the console, the host functions it calls.  The
    successive results of [randid()] are read from [entropy]: [Math.random]
    is an oracle for the program, [draws] counts the calls made so far. *)

Record Internals := {
  getNativeFromReactElement : val → val;
  getReactElementFromNative : val → val
}.

(** What a listener finds in the Backend when it is called: listeners run
    inside [emit], before the emitting method goes on. *)
Record View := {
  v_heap : gmap loc cell;
  v_comps : gmap val val;
  v_ids : gmap loc val;
  v_nodes : gmap val val;
  v_roots : gset val
}.

Record Emission := {
  ev_name : string;
  ev_data : val;
  ev_view : View
}.

Record State := {
  heap : gmap loc cell;
  comps : gmap val val;
  ids : gmap loc val;
  nodes : gmap val val;
  roots : gset val;
  reactInternals : option Internals;
  globals : gmap string val;
  emitted : list Emission;
  console : list string;
  called : list val;
  entropy : nat → string;
  draws : nat
}.

Definition view_of (s : State) : View :=
  {| v_heap := heap s; v_comps := comps s; v_ids := ids s;
     v_nodes := nodes s; v_roots := roots s |}.

Definition set_heap (h : gmap loc cell) (s : State) : State :=
  {| heap := h; comps := comps s; ids := ids s; nodes := nodes s;
     roots := roots s; reactInternals := reactInternals s;
     globals := globals s; emitted := emitted s; console := console s;
     called := called s; entropy := entropy s; draws := draws s |}.

Definition set_comps (m : gmap val val) (s : State) : State :=
  {| heap := heap s; comps := m; ids := ids s; nodes := nodes s;
     roots := roots s; reactInternals := reactInternals s;
     globals := globals s; emitted := emitted s; console := console s;
     called := called s; entropy := entropy s; draws := draws s |}.

Definition set_ids (m : gmap loc val) (s : State) : State :=
  {| heap := heap s; comps := comps s; ids := m; nodes := nodes s;
     roots := roots s; reactInternals := reactInternals s;
     globals := globals s; emitted := emitted s; console := console s;
     called := called s; entropy := entropy s; draws := draws s |}.

Definition set_nodes (m : gmap val val) (s : State) : State :=
  {| heap := heap s; comps := comps s; ids := ids s; nodes := m;
     roots := roots s; reactInternals := reactInternals s;
     globals := globals s; emitted := emitted s; console := console s;
     called := called s; entropy := entropy s; draws := draws s |}.

Definition set_roots (r : gset val) (s : State) : State :=
  {| heap := heap s; comps := comps s; ids := ids s; nodes := nodes s;
     roots := r; reactInternals := reactInternals s;
     globals := globals s; emitted := emitted s; console := console s;
     called := called s; entropy := entropy s; draws := draws s |}.

Definition set_internals (r : option Internals) (s : State) : State :=
  {| heap := heap s; comps := comps s; ids := ids s; nodes := nodes s;
     roots := roots s; reactInternals := r;
     globals := globals s; emitted := emitted s; console := console s;
     called := called s; entropy := entropy s; draws := draws s |}.

Definition set_globals (g : gmap string val) (s : State) : State :=
  {| heap := heap s; comps := comps s; ids := ids s; nodes := nodes s;
     roots := roots s; reactInternals := reactInternals s;
     globals := g; emitted := emitted s; console := console s;
     called := called s; entropy := entropy s; draws := draws s |}.

Definition set_emitted (e : list Emission) (s : State) : State :=
  {| heap := heap s; comps := comps s; ids := ids s; nodes := nodes s;
     roots := roots s; reactInternals := reactInternals s;
     globals := globals s; emitted := e; console := console s;
     called := called s; entropy := entropy s; draws := draws s |}.

Definition set_console (c : list string) (s : State) : State :=
  {| heap := heap s; comps := comps s; ids := ids s; nodes := nodes s;
     roots := roots s; reactInternals := reactInternals s;
     globals := globals s; emitted := emitted s; console := c;
     called := called s; entropy := entropy s; draws := draws s |}.

Definition set_called (c : list val) (s : State) : State :=
  {| heap := heap s; comps := comps s; ids := ids s; nodes := nodes s;
     roots := roots s; reactInternals := reactInternals s;
     globals := globals s; emitted := emitted s; console := console s;
     called := c; entropy := entropy s; draws := draws s |}.

Definition set_draws (n : nat) (s : State) : State :=
  {| heap := heap s; comps := comps s; ids := ids s; nodes := nodes s;
     roots := roots s; reactInternals := reactInternals s;
     globals := globals s; emitted := emitted s; console := console s;
     called := called s; entropy := entropy s; draws := n |}.

(** [new Backend(global)] in a host whose objects are [h] and whose random
    generator is [e] *)
Definition init (h : gmap loc cell) (e : nat → string) : State :=
  {| heap := h; comps := ∅; ids := ∅; nodes := ∅; roots := ∅;
     reactInternals := None; globals := ∅; emitted := []; console := [];
     called := []; entropy := e; draws := 0 |}.

(** ** The monad

    A method returns, or throws (a [TypeError] is all this program can
    throw), in both cases leaving a state behind; or it leaves the model
    ([Unmodelled]: say a write that grows an array, a method of a host
    object whose result is not known). *)

Inductive outcome (A : Type) :=
  | Ret (a : A) (s : State)
  | Throw (s : State)
  | Unmodelled.
Arguments Ret {A} a s.
Arguments Throw {A} s.
Arguments Unmodelled {A}.

Definition M (A : Type) : Type := State → outcome A.

Definition ret {A} (a : A) : M A := fun s => Ret a s.

Definition bind {A B} (m : M A) (f : A → M B) : M B :=
  fun s =>
    match m s with
    | Ret a s' => f a s'
    | Throw s' => Throw s'
    | Unmodelled => Unmodelled
    end.

Definition throw {A} : M A := fun s => Throw s.
Definition unmodelled {A} : M A := fun _ => Unmodelled.
Definition gets {A} (f : State → A) : M A := fun s => Ret (f s) s.
Definition modify (f : State → State) : M unit := fun s => Ret () (f s).

Declare Scope js_scope.
Delimit Scope js_scope with js.
Notation "'let*' x ':=' m 'in' k" := (bind m (fun x => k))
  (at level 10, x name, m at level 100, k at level 200) : js_scope.
Notation "m ';;;' k" := (bind m (fun _ => k))
  (at level 100, k at level 200, right associativity) : js_scope.
Local Open Scope js_scope.

(** The state a computation leaves, when it returns or throws *)
Definition final {A} (o : outcome A) : option State :=
  match o with
  | Ret _ s | Throw s => Some s
  | Unmodelled => None
  end.

(** *** Primitive steps *)

(** [new Object] / [new Array]: a reference no cell of the heap has *)
Definition alloc (c : cell) : M val := fun s =>
  let l := fresh (dom (heap s)) in
  Ret (VRef l) (set_heap (<[l := c]> (heap s)) s).

(** [v.k] where [v] may be [undefined] or [null]: then a [TypeError] *)
Definition read_prop (v : val) (k : string) : M val :=
  if nullish v then throw
  else gets (fun s => prop_get (heap s) v k).

(** [v[k] = x] in strict mode: a [TypeError] unless [v] is an object *)
Definition write_prop (v : val) (k : string) (x : val) : M unit := fun s =>
  match v with
  | VRef l =>
      match heap s !! l with
      | Some c =>
          match cell_set c k x with
          | Some c' => Ret () (set_heap (<[l := c']> (heap s)) s)
          | None => Unmodelled
          end
      | None => Unmodelled
      end
  | VFun _ => Unmodelled
  | _ => Throw s
  end.

(** [delete v.k] on a plain object *)
Definition delete_prop (v : val) (k : string) : M unit := fun s =>
  match v with
  | VRef l =>
      match heap s !! l with
      | Some c =>
          match cell_delete c k with
          | Some c' => Ret () (set_heap (<[l := c']> (heap s)) s)
          | None => Unmodelled
          end
      | None => Unmodelled
      end
  | _ => Unmodelled
  end.

(** [f()] for a value [f]: the call of a host function is recorded, the
    call of anything else is a [TypeError].  What the host does when called
    is the host's: it shows as later calls of a run. *)
Definition call (f : val) : M unit :=
  match f with
  | VFun _ => modify (fun s => set_called (called s ++ [f]) s)
  | _ => throw
  end.

(** [this.emit(ev, data)] *)
Definition emit (ev : string) (data : val) : M unit :=
  modify (fun s =>
    set_emitted
      (emitted s ++ [{| ev_name := ev; ev_data := data; ev_view := view_of s |}])
      s).

(** [console.warn(msg)], [console.log(msg)] *)
Definition console_warn (msg : string) : M unit :=
  modify (fun s => set_console (console s ++ [msg]) s).

(** [randid()]: the next draw.
    [Math.random().toString(0x0f).slice(10, 20)] *)
Definition randid : M val := fun s =>
  Ret (VStr (entropy s (draws s))) (set_draws (S (draws s)) s).

(** The [WeakMap] [ids]: only an object is a key; [set] throws on any other
    key, [has], [get] and [delete] find nothing there. *)
Definition ids_has (k : val) : M bool :=
  gets (fun s =>
    match k with
    | VRef l => bool_decide (is_Some (ids s !! l))
    | _ => false
    end).

Definition ids_get (k : val) : M val :=
  gets (fun s =>
    match k with
    | VRef l => default VUndef (ids s !! l)
    | _ => VUndef
    end).

Definition ids_set (k : val) (v : val) : M unit :=
  match k with
  | VRef l => modify (fun s => set_ids (<[l := v]> (ids s)) s)
  | _ => throw
  end.

Definition ids_delete (k : val) : M unit :=
  match k with
  | VRef l => modify (fun s => set_ids (delete l (ids s)) s)
  | _ => ret ()
  end.

(** The [Map]s [comps] and [nodes], the [Set] [roots] *)
Definition comps_get (k : val) : M val :=
  gets (fun s => default VUndef (comps s !! k)).
Definition comps_set (k v : val) : M unit :=
  modify (fun s => set_comps (<[k := v]> (comps s)) s).
Definition nodes_get (k : val) : M val :=
  gets (fun s => default VUndef (nodes s !! k)).
Definition nodes_set (k v : val) : M unit :=
  modify (fun s => set_nodes (<[k := v]> (nodes s)) s).
Definition nodes_delete (k : val) : M unit :=
  modify (fun s => set_nodes (delete k (nodes s)) s).
Definition roots_add (k : val) : M unit :=
  modify (fun s => set_roots ({[k]} ∪ roots s) s).
Definition roots_delete (k : val) : M unit :=
  modify (fun s => set_roots (roots s ∖ {[k]}) s).

Fixpoint mapM {A B} (f : A → M B) (l : list A) : M (list B) :=
  match l with
  | [] => ret []
  | x :: rest =>
      let* y := f x in
      let* ys := mapM f rest in
      ret (y :: ys)
  end.

(** [assign({}, data)]: a new object with the own properties of [data];
    nothing is copied from [undefined], [null], a boolean or a number. *)
Definition assign_new (data : val) : M val := fun s =>
  match data with
  | VRef l =>
      match heap s !! l with
      | Some (CObj props) => alloc (CObj props) s
      | _ => Unmodelled
      end
  | VUndef | VNull | VBool _ | VNum _ => alloc (CObj ∅) s
  | VStr str => if String.eqb str "" then alloc (CObj ∅) s else Unmodelled
  | VFun _ => Unmodelled
  end.

(** [arr.map(f)], called where [arr.map] is truthy: on an array, a new array
    of the results; a property [map] that the array or a plain object has
    of its own is called, which is a [TypeError] unless it is a function of
    the host. *)
Definition array_map (f : val → M val) (arr : val) : M val := fun s =>
  match arr with
  | VRef l =>
      match heap s !! l with
      | Some (CArr elems named) =>
          match named !! "map" with
          | None =>
              (let* res := alloc (CArr [] ∅) in
               let* ys := mapM f elems in
               match res with
               | VRef r =>
                   modify (fun s => set_heap (<[r := CArr ys ∅]> (heap s)) s) ;;;
                   ret res
               | _ => unmodelled
               end) s
          | Some (VFun _) => Unmodelled
          | Some _ => Throw s
          end
      | Some (CObj props) =>
          match props !! "map" with
          | Some (VFun _) => Unmodelled
          | _ => Throw s
          end
      | None => Unmodelled
      end
  | _ => Throw s
  end.

(** [arr.push(v)] on an array that has no [push] of its own *)
Definition array_push (arr : val) (v : val) : M unit := fun s =>
  match arr with
  | VRef l =>
      match heap s !! l with
      | Some (CArr elems named) =>
          match named !! "push" with
          | None =>
              Ret () (set_heap (<[l := CArr (elems ++ [v]) named]> (heap s)) s)
          | Some _ => Unmodelled
          end
      | _ => Unmodelled
      end
  | _ => Unmodelled
  end.

(** ** The Path Accessor *)

(** [function setIn(obj, path, value)] *)
Definition setIn (obj : val) (path : list string) (value : val) : M bool :=
  let name := default "undefined" (last path) in
  let path := removelast path in
  let* child := gets (fun s => walk (heap s) obj path) in
  if decide (child = VNull) then ret false
  else
    write_prop child name value ;;;
    ret true.

(** [function getIn(obj, path)] *)
Definition getIn (obj : val) (path : list string) : M val :=
  gets (fun s => walk (heap s) obj path).

(** ** The methods of [class Backend] *)

Definition setReactInternals (r : Internals) : M unit :=
  modify (set_internals (Some r)).

(** [getId(element)] *)
Definition getId (element : val) : M val :=
  if negb (typeof_object element) then ret element
  else
    let* known := ids_has element in
    (if negb known then
       let* r := randid in
       ids_set element r ;;;
       let* i := ids_get element in
       comps_set i element
     else ret ()) ;;;
    ids_get element.

(** [addRoot(element)] *)
Definition addRoot (element : val) : M unit :=
  let* id := getId element in
  roots_add id ;;;
  emit "root" id.

(** The body that [onMounted] and [onUpdated] have in common, word for word;
    they differ in the event emitted. *)
Definition record_and_send (ev : string) (component data : val) : M unit :=
  let* id := getId component in
  nodes_set id data ;;;
  let* send := assign_new data in
  let* children := read_prop send "children" in
  let* mappable := gets (fun s => truthy children && has_map (heap s) children) in
  (if mappable then
     let* ids := array_map getId children in
     write_prop send "children" ids
   else ret ()) ;;;
  write_prop send "id" id ;;;
  let* updater := read_prop send "updater" in
  let* canUpdate :=
    (if truthy updater then
       let* f := read_prop updater "forceUpdate" in
       ret (VBool (truthy f))
     else ret updater) in
  write_prop send "canUpdate" canUpdate ;;;
  delete_prop send "type" ;;;
  delete_prop send "updater" ;;;
  emit ev send.

Definition onMounted (component data : val) : M unit :=
  record_and_send "mount" component data.

Definition onUpdated (component data : val) : M unit :=
  record_and_send "update" component data.

(** [onUnmounted(component)] *)
Definition onUnmounted (component : val) : M unit :=
  let* id := getId component in
  nodes_delete id ;;;
  roots_delete id ;;;
  emit "unmount" id ;;;
  ids_delete component.

(** [_setProps], [_setState] and [_setContext] are one body over the field
    written and the warning logged. *)
Definition set_field (field warning : string)
    (id : val) (path : list string) (value : val) : M unit :=
  let* data := nodes_get id in
  let* target := read_prop data field in
  let* _ := setIn target path value in
  let* updater := read_prop data "updater" in
  let* trigger :=
    (if truthy updater then read_prop updater "forceUpdate" else ret updater) in
  if truthy trigger then
    call trigger ;;;
    let* component := comps_get id in
    onUpdated component data
  else console_warn warning.

Definition _setProps : val → list string → val → M unit :=
  set_field "props"
    "trying to set props on a component that doesn't support it".

Definition _setState : val → list string → val → M unit :=
  set_field "state"
    "trying to set state on a component that doesn't support it".

Definition _setContext : val → list string → val → M unit :=
  set_field "context"
    "trying to set state on a component that doesn't support it".

(** [_makeGlobal({id, path})]: [path] is the string ['instance'] or a list
    of keys; any other string has no [reduce]. *)
Definition _makeGlobal (id : val) (path : string + list string) : M unit :=
  let* data := nodes_get id in
  let* value :=
    match path with
    | inl str =>
        if String.eqb str "instance" then
          let* updater := read_prop data "updater" in
          if truthy updater then read_prop updater "publicInstance"
          else ret updater
        else throw
    | inr keys => getIn data keys
    end in
  modify (fun s => set_globals (<["$tmp" := value]> (globals s)) s) ;;;
  console_warn "$tmp =".

(** [getNodeForID(id)] *)
Definition getNodeForID (id : val) : M val :=
  let* component := comps_get id in
  if negb (truthy component) then ret VNull
  else
    let* internals := gets reactInternals in
    match internals with
    | None => ret VNull
    | Some r => ret (getNativeFromReactElement r component)
    end.

(** [highlight(id)] *)
Definition highlight (id : val) : M unit :=
  let* data := nodes_get id in
  let* node := getNodeForID id in
  if truthy node then
    let* payload := alloc (CObj ∅) in
    write_prop payload "node" node ;;;
    let* name := read_prop data "name" in
    write_prop payload "name" name ;;;
    let* props := read_prop data "props" in
    write_prop payload "props" props ;;;
    emit "highlight" payload
  else ret ().

(** [highlightMany(ids)] *)
Definition highlightMany (ids : list val) : M unit :=
  let* found := alloc (CArr [] ∅) in
  mapM (fun id =>
          let* node := getNodeForID id in
          if truthy node then array_push found node else ret ()) ids ;;;
  let* length := read_prop found "length" in
  if truthy length then emit "highlightMany" found else ret ().

(** [scrollToNode(id)] *)
Definition scrollToNode (id : val) : M unit :=
  let* node := getNodeForID id in
  if negb (truthy node) then
    console_warn "unable to get the node for scrolling"
  else
    let* f := read_prop node "scrollIntoViewIfNeeded" in
    (if truthy f then call f
     else
       let* g := read_prop node "scrollIntoView" in
       call g) ;;;
    highlight id.

(** [getIDForNode(node)] *)
Definition getIDForNode (node : val) : M val :=
  let* internals := gets reactInternals in
  match internals with
  | None => ret VNull
  | Some r =>
      let component := getReactElementFromNative r node in
      if truthy component then getId component else ret VUndef
  end.

(** The literal [{id, quiet}] *)
Definition selection (id quiet : val) : M val :=
  let* data := alloc (CObj ∅) in
  write_prop data "id" id ;;;
  write_prop data "quiet" quiet ;;;
  ret data.

(** [selectFromDOMNode(node, quiet)] *)
Definition selectFromDOMNode (node quiet : val) : M unit :=
  let* id := getIDForNode node in
  if negb (truthy id) then ret ()
  else
    let* data := selection id quiet in
    emit "setSelection" data.

(** [selectFromReactInstance(instance, quiet)] *)
Definition selectFromReactInstance (instance quiet : val) : M unit :=
  let* id := getId instance in
  (if negb (truthy id) then console_warn "no instance id" else ret ()) ;;;
  let* data := selection id quiet in
  emit "setSelection" data.

(** The event [selected], as the channel raises it, with the listener the
    constructor registers for it. *)
Definition selected (id : val) : M unit :=
  emit "selected" id ;;;
  let* data := nodes_get id in
  if truthy data then
    let* updater := read_prop data "updater" in
    if truthy updater then
      let* inst := read_prop updater "publicInstance" in
      modify (fun s => set_globals (<["$r" := inst]> (globals s)) s)
    else ret ()
  else ret ().

(** ** Runs of the Backend

    The host and the channel call the methods one after the other; a call
    that threw leaves the Backend there for the next call.  Between two calls
    the host allocates and changes objects of its own. *)

Inductive op :=
  | SetReactInternals (r : Internals)
  | GetId (element : val)
  | AddRoot (element : val)
  | OnMounted (component data : val)
  | OnUpdated (component data : val)
  | OnUnmounted (component : val)
  | SetProps (id : val) (path : list string) (value : val)
  | SetState (id : val) (path : list string) (value : val)
  | SetContext (id : val) (path : list string) (value : val)
  | MakeGlobal (id : val) (path : string + list string)
  | Highlight (id : val)
  | HighlightMany (ids : list val)
  | ScrollToNode (id : val)
  | SelectFromDOMNode (node quiet : val)
  | SelectFromReactInstance (instance quiet : val)
  | Selected (id : val)
  | HostWrites (h : gmap loc cell).

Definition exec (o : op) : M unit :=
  match o with
  | SetReactInternals r => setReactInternals r
  | GetId element => getId element ;;; ret ()
  | AddRoot element => addRoot element
  | OnMounted component data => onMounted component data
  | OnUpdated component data => onUpdated component data
  | OnUnmounted component => onUnmounted component
  | SetProps id path value => _setProps id path value
  | SetState id path value => _setState id path value
  | SetContext id path value => _setContext id path value
  | MakeGlobal id path => _makeGlobal id path
  | Highlight id => highlight id
  | HighlightMany ids => highlightMany ids
  | ScrollToNode id => scrollToNode id
  | SelectFromDOMNode node quiet => selectFromDOMNode node quiet
  | SelectFromReactInstance instance quiet =>
      selectFromReactInstance instance quiet
  | Selected id => selected id
  | HostWrites h => modify (set_heap h)
  end.

(** The state after a list of calls; a call outside the model ends the run
    where it is. *)
Fixpoint run (os : list op) (s : State) : State :=
  match os with
  | [] => s
  | o :: rest =>
      match final (exec o s) with
      | Some s' => run rest s'
      | None => s
      end
  end.

Inductive reachable : State → Prop :=
  | reach_init h e : reachable (init h e)
  | reach_step s o s' :
      reachable s → final (exec o s) = Some s' → reachable s'.

(** The identifiers drawn so far, oldest first *)
Definition drawn (s : State) : list string :=
  map (entropy s) (seq 0 (draws s)).

(** The Identifier of a value in a state: what [getId] answers for a value
    that is registered or is not an object. *)
Definition id_of (s : State) (v : val) : val :=
  match v with
  | VRef l => default VUndef (ids s !! l)
  | _ => v
  end.


(** ** Notions used in the statements *)

(** [holds I m Q]: from a state in [I], [m] leaves a state in [I], whether it
    returns or throws, and what it returns is in [Q]. *)
Definition holds {A} (I : State → Prop) (m : M A) (Q : A → Prop) : Prop :=
  ∀ s, I s →
    match m s with
    | Ret a s' => I s' ∧ Q a
    | Throw s' => I s'
    | Unmodelled => True
    end.

Definition any {A} : A → Prop := fun _ => True.

(** The state in which [getId] leaves a Backend that did not know the
    object at [l]. *)
Definition register (l : loc) (s : State) : State :=
  let r := VStr (entropy s (draws s)) in
  set_comps (<[r := VRef l]> (comps s))
    (set_ids (<[l := r]> (ids s)) (set_draws (S (draws s)) s)).

(** The calls of a run in which only the handles in [forgettable] are
    unmounted. *)
Definition allowed (forgettable : val → Prop) (o : op) : Prop :=
  match o with
  | OnUnmounted component => forgettable component
  | _ => True
  end.

(** ** A small host, for the examples

    Two component instances, at 0 and 4.  The snapshots at 1 and 7 are that
    of a class component: they have an updater; the one at 5 has none.  The
    snapshot at 7 has children: a component, a text, a component. *)

Definition host_heap : gmap loc cell :=
  {[ 0%nat := CObj ∅;
     1%nat := CObj {[ "name" := VStr "Foo"; "type" := VStr "class";
                      "props" := VRef 2%nat; "updater" := VRef 3%nat ]};
     2%nat := CObj {[ "x" := VNum 1 ]};
     3%nat := CObj {[ "forceUpdate" := VFun 0%nat;
                      "publicInstance" := VRef 0%nat ]};
     4%nat := CObj ∅;
     5%nat := CObj {[ "name" := VStr "Bar"; "type" := VStr "div";
                      "props" := VRef 6%nat ]};
     6%nat := CObj {[ "x" := VNum 1 ]};
     7%nat := CObj {[ "name" := VStr "List"; "type" := VStr "class";
                      "children" := VRef 8%nat; "updater" := VRef 3%nat ]};
     8%nat := CArr [VRef 4%nat; VStr "text"; VRef 0%nat] ∅ ]}.

(** A random generator that gives the strings of [l], then the empty
    string ([Math.random()] gave [0]). *)
Definition table (l : list string) : nat → string :=
  fun k => nth k l "".

Definition distinct_draws : nat → string :=
  table ["3a9e01c2b7"; "5d0b7e44a1"; "0c6e2a9d13"; "e1e07b5a62"].

Definition repeated_draws : nat → string :=
  table ["3a9e01c2b7"; "3a9e01c2b7"].

(** The Backend after the mount of the component at 0 *)
Definition mounted : State :=
  run [OnMounted (VRef 0%nat) (VRef 1%nat)] (init host_heap distinct_draws).

(** The registry as the program keeps it: the Identifier of a registered
    handle leads back to the handle, and every key of [comps] was drawn. *)
Definition ids_in_comps (s : State) : Prop :=
  ∀ h i, ids s !! h = Some i → comps s !! i = Some (VRef h).

Definition comps_drawn (s : State) : Prop :=
  ∀ i, is_Some (comps s !! i) →
    ∃ k, (k < draws s)%nat ∧ i = VStr (entropy s k).

Definition registry_ok (s : State) : Prop :=
  NoDup (drawn s) → ids_in_comps s ∧ comps_drawn s.

(** [s'] comes later than [s] in a run: same generator, no fewer draws, and
    the entries of [comps] are still there if no draw was repeated. *)
Definition later (s s' : State) : Prop :=
  entropy s' = entropy s
  ∧ (draws s ≤ draws s')%nat
  ∧ (NoDup (drawn s') →
     ∀ i v, comps s !! i = Some v → comps s' !! i = Some v).

(** The Backend after a mount and the unmount of the same component *)
Definition unmounted : State :=
  run [OnMounted (VRef 0%nat) (VRef 1%nat); OnUnmounted (VRef 0%nat)]
    (init host_heap distinct_draws).

(** A generator that repeats itself: two handles registered with it, and a
    handle registered, forgotten and registered again. *)
Definition collided : State :=
  run [GetId (VRef 0%nat); GetId (VRef 4%nat)] (init host_heap repeated_draws).

Definition forgotten : State :=
  run [GetId (VRef 0%nat); OnUnmounted (VRef 0%nat)]
    (init host_heap repeated_draws).

(** The Backend after the mount of the component at 4, whose snapshot has no
    updater *)
Definition mounted_plain : State :=
  run [OnMounted (VRef 4%nat) (VRef 5%nat)] (init host_heap distinct_draws).

(** An object that is its own property [a]: [var o = {}; o.a = o] *)
Definition cyclic_heap : gmap loc cell :=
  {[ 0%nat := CObj {[ "a" := VRef 0%nat ]} ]}.

(** A tree adapter that finds a native node, the object at 2, for every
    component *)
Definition adapter : Internals :=
  {| getNativeFromReactElement := fun _ => VRef 2%nat;
     getReactElementFromNative := fun _ => VUndef |}.

(** The Backend after [addRoot] of the component at 0, not mounted yet *)
Definition rooted : State :=
  run [SetReactInternals adapter; AddRoot (VRef 0%nat)]
    (init host_heap distinct_draws).

(** The two halves of the body of [onMounted] and [onUpdated] that come after
    the copy of the snapshot: the children are replaced by their
    Identifiers, then the message is completed, stripped and emitted. *)
Definition map_children (send : val) : M unit :=
  let* children := read_prop send "children" in
  let* mappable := gets (fun s => truthy children && has_map (heap s) children) in
  if mappable then
    let* ids := array_map getId children in
    write_prop send "children" ids
  else ret ().

Definition strip_and_emit (ev : string) (id send : val) : M unit :=
  write_prop send "id" id ;;;
  let* updater := read_prop send "updater" in
  let* canUpdate :=
    (if truthy updater then
       let* f := read_prop updater "forceUpdate" in
       ret (VBool (truthy f))
     else ret updater) in
  write_prop send "canUpdate" canUpdate ;;;
  delete_prop send "type" ;;;
  delete_prop send "updater" ;;;
  emit ev send.

(** [v] is not [null] and [i] is its Identifier in [s]: the one it is
    registered under, or [v] itself when [v] is no object. *)
Definition identified (s : State) (v i : val) : Prop :=
  match v with
  | VRef l => ids s !! l = Some i
  | VNull => False
  | _ => i = v
  end.

(** While a snapshot is sent: the objects that were in the heap of [s0] are
    as they were, the Node Store has [data] under [i], and [i] is the
    Identifier of [component]. *)
Definition stored (s0 : State) (component data i : val) (s : State) : Prop :=
  (∀ l c, heap s0 !! l = Some c → heap s !! l = Some c)
  ∧ nodes s !! i = Some data
  ∧ identified s component i.

(** What [canUpdate] is set to, for the value [updater] of the snapshot's
    property of this name: [send.updater && !!send.updater.forceUpdate] *)
Definition canUpdate_of (h : gmap loc cell) (updater : val) : val :=
  if truthy updater then VBool (truthy (prop_get h updater "forceUpdate"))
  else updater.

(** A snapshot that [onMounted] and [onUpdated] send without fault: its
    updater, if an object, is in the heap; so are its children, an array has
    no [null] in it, and neither an array nor a plain object has a [map] of
    its own. *)
Definition sendable (h : gmap loc cell) (snapshot : gmap string val) : Prop :=
  (∀ p, snapshot !! "updater" = Some (VRef p) → is_Some (h !! p))
  ∧ match snapshot !! "children" with
    | Some (VRef a) =>
        match h !! a with
        | Some (CArr elems named) => (VNull ∉ elems) ∧ (named !! "map" = None)
        | Some (CObj props) => truthy (default VUndef (props !! "map")) = false
        | None => False
        end
    | _ => True
    end.

(** The children of the message [msg] sent in [s'] for [snapshot]: a new
    array of the Identifiers of the elements when the snapshot had an array,
    else what the snapshot had. *)
Definition children_sent (s' : State) (h : gmap loc cell)
    (snapshot msg : gmap string val) : Prop :=
  match snapshot !! "children" with
  | Some (VRef a) =>
      match h !! a with
      | Some (CArr elems _) =>
          ∃ r, h !! r = None
               ∧ msg !! "children" = Some (VRef r)
               ∧ heap s' !! r = Some (CArr (map (id_of s') elems) ∅)
      | _ => msg !! "children" = snapshot !! "children"
      end
  | _ => msg !! "children" = snapshot !! "children"
  end.

(** The computation [m], on [component] and the snapshot at [d], returns
    having emitted the event [ev] with a message as the Event Normalizer
    describes it. *)
Definition sends (ev : string) (m : M unit) (s : State)
    (component : val) (snapshot : gmap string val) : Prop :=
  ∃ s' e send msg,
    m s = Ret () s'
    ∧ emitted s' = (emitted s ++ [e])%list
    ∧ ev_name e = ev ∧ ev_data e = VRef send
    ∧ heap s !! send = None
    ∧ v_heap (ev_view e) !! send = Some (CObj msg)
    ∧ heap s' !! send = Some (CObj msg)
    ∧ msg !! "id" = Some (id_of s' component)
    ∧ children_sent s' (heap s) snapshot msg
    ∧ msg !! "canUpdate"
      = Some (canUpdate_of (heap s) (default VUndef (snapshot !! "updater")))
    ∧ msg !! "type" = None
    ∧ msg !! "updater" = None
    ∧ ∀ k, k ∉ ["id"; "children"; "canUpdate"; "type"; "updater"] →
           msg !! k = snapshot !! k.

(** [v] is an object made since [s0]: a reference that the heap of [s0] has
    no cell for. *)
Definition made_since (s0 : State) (v : val) : Prop :=
  ∃ l, v = VRef l ∧ heap s0 !! l = None.

(** The snapshot has no updater, or an updater, another object than [t],
    that has no [forceUpdate]. *)
Definition lacks_trigger (h : gmap loc cell) (snapshot : gmap string val)
    (t : loc) : Prop :=
  snapshot !! "updater" = None
  ∨ ∃ p uprops,
      snapshot !! "updater" = Some (VRef p)
      ∧ p ≠ t
      ∧ h !! p = Some (CObj uprops)
      ∧ uprops !! "forceUpdate" = None.

(** The mutation command [m] on [id], whose snapshot is at [d], returns
    having logged [warning], emitted nothing and called nothing, and the
    object at [t] has [value] under [key]. *)
Definition rejected_after_write (m : M unit) (warning : string) (s : State)
    (id : val) (d t : loc) (key : string) (value : val) : Prop :=
  ∃ s',
    m s = Ret () s'
    ∧ console s' = (console s ++ [warning])%list
    ∧ emitted s' = emitted s
    ∧ called s' = called s
    ∧ nodes s' !! id = Some (VRef d)
    ∧ prop_get (heap s') (VRef t) key = value.

(** From [s] to [s'] nothing happened but registrations. *)
Definition grows (s s' : State) : Prop :=
  heap s' = heap s
  ∧ emitted s' = emitted s
  ∧ ∀ v i, identified s v i → identified s' v i.

(** ** Notions used in the further properties *)

(** The Identity Registry, the Node Store and the Root Set are in [s'] what
    they were in [s]. *)
Definition same_registry (s s' : State) : Prop :=
  ids s' = ids s ∧ comps s' = comps s
  ∧ nodes s' = nodes s ∧ roots s' = roots s.

(** The calls that only look things up: highlighting, scrolling, the
    diagnostic [$tmp] and [$r]. *)
Definition lookup_only (o : op) : Prop :=
  match o with
  | Highlight _ | HighlightMany _ | ScrollToNode _
  | MakeGlobal _ _ | Selected _ => True
  | _ => False
  end.

(** A computation that emits nothing, whether it returns or throws *)
Definition silent {A} (m : M A) : Prop :=
  ∀ e0, holds (fun s => emitted s = e0) m any.

(** A computation that has emitted nothing when it throws *)
Definition throws_silently {A} (m : M A) : Prop :=
  ∀ s, match m s with
       | Throw s' => emitted s' = emitted s
       | _ => True
       end.

(** What the [selected] listener leaves in [$r]: the public instance of the
    snapshot's updater, when the Node Store has a snapshot for [id] and the
    snapshot an updater. *)
Definition selected_globals (s : State) (id : val) : gmap string val :=
  let data := default VUndef (nodes s !! id) in
  let updater := prop_get (heap s) data "updater" in
  if truthy data && truthy updater
  then <["$r" := prop_get (heap s) updater "publicInstance"]> (globals s)
  else globals s.

(** A snapshot, at 1, whose second child is [null] *)
Definition null_child_heap : gmap loc cell :=
  {[ 0%nat := CObj ∅;
     1%nat := CObj {[ "children" := VRef 2%nat ]};
     2%nat := CArr [VRef 0%nat; VNull] ∅ ]}.

(** What [getNodeForID] returns: the native node that the adapter has for
    the component registered under [id]; [null] when [comps] has nothing
    for [id] or no adapter was injected. *)
Definition node_of (s : State) (id : val) : val :=
  let component := default VUndef (comps s !! id) in
  if negb (truthy component) then VNull
  else
    match reactInternals s with
    | None => VNull
    | Some r => getNativeFromReactElement r component
    end.

(** The scroll method that [scrollToNode] calls on a node:
    [scrollIntoViewIfNeeded] if the node has it, else [scrollIntoView]. *)
Definition scroll_method (h : gmap loc cell) (node : val) : val :=
  let f := prop_get h node "scrollIntoViewIfNeeded" in
  if truthy f then f else prop_get h node "scrollIntoView".

(** The Backend with the adapter of the examples, after the mount of the
    components at 0 and 4 *)
Definition adapted : State :=
  run [SetReactInternals adapter; OnMounted (VRef 0%nat) (VRef 1%nat);
       OnMounted (VRef 4%nat) (VRef 5%nat)]
    (init host_heap distinct_draws).

(** ** The selection handlers of the channel

    The handlers that [addBridge] registers for [putSelectedNode],
    [putSelectedInstance] and [checkSelection] work on the field
    [_prevSelected] of the Backend and on three slots of
    [window.__REACT_DEVTOOLS_BACKEND__]: [$0], written by the host, [$node]
    and [$inst].  They are passed along as a record. *)

Record Selection := {
  prevSelected : val;
  sel_0 : val;
  sel_node : val;
  sel_inst : val
}.

Definition set_prevSelected (v : val) (w : Selection) : Selection :=
  {| prevSelected := v; sel_0 := sel_0 w; sel_node := sel_node w;
     sel_inst := sel_inst w |}.

Definition set_sel_node (v : val) (w : Selection) : Selection :=
  {| prevSelected := prevSelected w; sel_0 := sel_0 w; sel_node := v;
     sel_inst := sel_inst w |}.

Definition set_sel_inst (v : val) (w : Selection) : Selection :=
  {| prevSelected := prevSelected w; sel_0 := sel_0 w; sel_node := sel_node w;
     sel_inst := v |}.

(** [bridge.on('putSelectedNode', id => ...)] *)
Definition putSelectedNode (id : val) (w : Selection) : M Selection :=
  let* node := getNodeForID id in
  ret (set_sel_node node w).

(** [bridge.on('putSelectedInstance', id => ...)] *)
Definition putSelectedInstance (id : val) (w : Selection) : M Selection :=
  let* node := nodes_get id in
  let* updater := read_prop node "updater" in
  let* inst :=
    (if truthy updater then read_prop updater "publicInstance"
     else ret updater) in
  if truthy inst then ret (set_sel_inst inst w)
  else ret (set_sel_inst VNull w).

(** [bridge.on('checkSelection', () => ...)].  [_prevSelected] is assigned
    before [selectFromDOMNode] is called, with one argument. *)
Definition checkSelection (w : Selection) : M Selection :=
  let newSelected := sel_0 w in
  if decide (newSelected ≠ prevSelected w) then
    let w' := set_prevSelected newSelected w in
    let sentSelected := sel_node w in
    if decide (newSelected ≠ sentSelected) then
      selectFromDOMNode newSelected VUndef ;;;
      ret w'
    else ret w'
  else ret w.

(** The message that [selectFromDOMNode] and [selectFromReactInstance]
    emit: [{id, quiet}] *)
Definition selection_message (id quiet : val) : cell :=
  CObj (<["quiet" := quiet]> (<["id" := id]> ∅)).

(** The message that [highlight] emits for a native node and a snapshot:
    [{node, name: data.name, props: data.props}] *)
Definition highlight_message (node : val) (snapshot : gmap string val) : cell :=
  CObj (<["props" := default VUndef (snapshot !! "props")]>
          (<["name" := default VUndef (snapshot !! "name")]>
             (<["node" := node]> ∅))).

(** * Reasoning about computations *)


Section holds.
Context (I : State → Prop).

Lemma holds_ret {A} (a : A) (Q : A → Prop) : Q a → holds I (ret a) Q.
Proof. intros HQ s Hs. by split. Qed.

Lemma holds_throw {A} (Q : A → Prop) : holds I throw Q.
Proof. intros s Hs. exact Hs. Qed.

Lemma holds_unmodelled {A} (Q : A → Prop) : holds I unmodelled Q.
Proof. intros s Hs. exact Logic.I. Qed.

Lemma holds_bind {A B} (m : M A) (k : A → M B) Q Q' :
  holds I m Q → (∀ a, Q a → holds I (k a) Q') → holds I (bind m k) Q'.
Proof.
  intros Hm Hk s Hs. unfold bind. specialize (Hm s Hs).
  destruct (m s) as [a s'| s'|]; [|exact Hm..].
  destruct Hm as [Hs' Ha]. by apply Hk.
Qed.

Lemma holds_gets {A} (f : State → A) : holds I (gets f) any.
Proof. intros s Hs. by split. Qed.

Lemma holds_modify (f : State → State) :
  (∀ s, I s → I (f s)) → holds I (modify f) any.
Proof. intros Hf s Hs. split; [by apply Hf | done]. Qed.

Lemma holds_mapM {A B} (f : A → M B) (l : list A) :
  (∀ x, holds I (f x) any) → holds I (mapM f l) any.
Proof.
  intros Hf. induction l as [|x l IH]; simpl.
  - by apply holds_ret.
  - eapply holds_bind; [apply Hf|]. intros y _.
    eapply holds_bind; [apply IH|]. intros ys _.
    by apply holds_ret.
Qed.
End holds.

(** Take a computation apart along its binds and its tests. *)
Ltac holds_step :=
  lazymatch goal with
  | |- holds _ (bind _ _) _ => eapply holds_bind with (Q := any); [|intros ? _]
  | |- holds _ (ret _) _ => apply holds_ret; exact Logic.I
  | |- holds _ throw _ => apply holds_throw
  | |- holds _ unmodelled _ => apply holds_unmodelled
  | |- holds _ (gets _) _ => apply holds_gets
  | |- holds _ (if ?b then _ else _) _ => destruct b
  | |- holds _ (match ?x with _ => _ end) _ => destruct x
  end.

Create HintDb keeps.

(** Split on a test whose subject is not itself a test. *)
Ltac innermost_match :=
  match goal with
  | |- context [match ?x with _ => _ end] =>
      lazymatch x with
      | context [match _ with _ => _ end] => fail
      | _ => destruct x eqn:?
      end
  end.

(** ** What [getId] does, case by case *)


Lemma getId_primitive (v : val) (s : State) :
  typeof_object v = false → getId v s = Ret v s.
Proof. intros H. unfold getId. by rewrite H. Qed.

Lemma getId_null (s : State) :
  getId VNull s = Throw (set_draws (S (draws s)) s).
Proof. reflexivity. Qed.

Lemma getId_known (l : loc) (i : val) (s : State) :
  ids s !! l = Some i → getId (VRef l) s = Ret i s.
Proof.
  intros H. unfold getId, bind, ids_has, ids_get, gets. simpl.
  rewrite bool_decide_eq_true_2; [|by eexists]. simpl. by rewrite H.
Qed.

Lemma getId_fresh (l : loc) (s : State) :
  ids s !! l = None →
  getId (VRef l) s = Ret (VStr (entropy s (draws s))) (register l s).
Proof.
  intros H. unfold getId, bind, ids_has, ids_get, gets. simpl.
  rewrite bool_decide_eq_false_2; [|rewrite H; by intros [? ?]]. simpl.
  by rewrite lookup_insert_eq.
Qed.

(** ** Invariants of the registry

    An invariant that no write to the heap, the Node Store, the Root Set or
    the traces can break is kept by every method, once [getId] keeps it and
    the handles that [onUnmounted] may forget are told. *)

Section registry_invariant.
Context (I : State → Prop) (forgettable : val → Prop).
Hypothesis I_heap : ∀ h s, I s → I (set_heap h s).
Hypothesis I_nodes : ∀ m s, I s → I (set_nodes m s).
Hypothesis I_roots : ∀ r s, I s → I (set_roots r s).
Hypothesis I_internals : ∀ r s, I s → I (set_internals r s).
Hypothesis I_globals : ∀ g s, I s → I (set_globals g s).
Hypothesis I_emitted : ∀ e s, I s → I (set_emitted e s).
Hypothesis I_console : ∀ c s, I s → I (set_console c s).
Hypothesis I_called : ∀ c s, I s → I (set_called c s).
Hypothesis I_getId : ∀ element, holds I (getId element) any.
Hypothesis I_forget : ∀ c, forgettable c → holds I (ids_delete c) any.

Local Ltac prim :=
  intros s Hs;
  cbv beta iota zeta delta
    [alloc write_prop delete_prop assign_new array_push];
  repeat (innermost_match; cbv beta iota zeta);
  try (split; [|done]); auto.

Lemma inv_alloc c : holds I (alloc c) any.
Proof. prim. Qed.

Lemma inv_write_prop v k x : holds I (write_prop v k x) any.
Proof. prim. Qed.

Lemma inv_delete_prop v k : holds I (delete_prop v k) any.
Proof. prim. Qed.

Lemma inv_assign_new data : holds I (assign_new data) any.
Proof. prim. Qed.

Lemma inv_array_push arr v : holds I (array_push arr v) any.
Proof. prim. Qed.

Lemma inv_call f : holds I (call f) any.
Proof. destruct f; try apply holds_throw. apply holds_modify; auto. Qed.

Lemma inv_emit ev data : holds I (emit ev data) any.
Proof. apply holds_modify; auto. Qed.

Lemma inv_console_warn msg : holds I (console_warn msg) any.
Proof. apply holds_modify; auto. Qed.

Lemma inv_read_prop v k : holds I (read_prop v k) any.
Proof. unfold read_prop. repeat holds_step. Qed.

Lemma inv_array_map arr : holds I (array_map getId arr) any.
Proof.
  intros s Hs. unfold array_map.
  destruct arr as [| | | | | |l]; try exact Hs.
  destruct (heap s !! l) as [[props|elems named]|]; [| |done].
  - destruct (props !! "map") as [[]|]; done.
  - destruct (named !! "map") as [[]|]; try done.
    revert s Hs.
    change (holds I
      (let* res := alloc (CArr [] ∅) in
       let* ys := mapM getId elems in
       match res with
       | VRef r =>
           modify (fun s => set_heap (<[r := CArr ys ∅]> (heap s)) s) ;;;
           ret res
       | _ => unmodelled
       end) any).
    eapply holds_bind; [apply inv_alloc|intros res _].
    eapply holds_bind; [apply holds_mapM, I_getId|intros ys _].
    destruct res; try apply holds_unmodelled.
    eapply holds_bind; [apply holds_modify; auto|intros _ _].
    by apply holds_ret.
Qed.

Hint Resolve inv_alloc inv_write_prop inv_delete_prop inv_assign_new
  inv_array_push inv_call inv_emit inv_console_warn inv_read_prop
  inv_array_map : keeps.

Local Ltac keep :=
  repeat first
    [ holds_step
    | apply I_getId
    | apply holds_modify; solve [auto]
    | solve [auto with keeps] ].

Lemma inv_setIn obj path value : holds I (setIn obj path value) any.
Proof. unfold setIn. keep. Qed.

Lemma inv_getIn obj path : holds I (getIn obj path) any.
Proof. unfold getIn. keep. Qed.

Lemma inv_record_and_send ev component data :
  holds I (record_and_send ev component data) any.
Proof. unfold record_and_send, nodes_set. keep. Qed.

Lemma inv_onUnmounted component :
  forgettable component → holds I (onUnmounted component) any.
Proof.
  intros Hc. unfold onUnmounted, nodes_delete, roots_delete. keep.
Qed.

Hint Resolve inv_setIn inv_getIn inv_record_and_send : keeps.

Lemma inv_set_field field warning id path value :
  holds I (set_field field warning id path value) any.
Proof. unfold set_field, nodes_get, comps_get, onUpdated. keep. Qed.

Lemma inv_getNodeForID id : holds I (getNodeForID id) any.
Proof. unfold getNodeForID, comps_get. keep. Qed.

Hint Resolve inv_getNodeForID : keeps.

Lemma inv_highlight id : holds I (highlight id) any.
Proof. unfold highlight, nodes_get. keep. Qed.

Hint Resolve inv_highlight : keeps.

Lemma inv_highlightMany ids : holds I (highlightMany ids) any.
Proof.
  unfold highlightMany.
  eapply holds_bind; [apply inv_alloc|intros found _].
  eapply holds_bind; [|intros _ _; keep].
  apply holds_mapM. intros id. keep.
Qed.

Lemma inv_selection id quiet : holds I (selection id quiet) any.
Proof. unfold selection. keep. Qed.

Hint Resolve inv_selection : keeps.


Lemma inv_exec o : allowed forgettable o → holds I (exec o) any.
Proof.
  destruct o; simpl; intros Ho.
  - apply holds_modify; auto.
  - keep.
  - unfold addRoot, roots_add. keep.
  - apply inv_record_and_send.
  - apply inv_record_and_send.
  - by apply inv_onUnmounted.
  - apply inv_set_field.
  - apply inv_set_field.
  - apply inv_set_field.
  - unfold _makeGlobal, nodes_get. keep.
  - apply inv_highlight.
  - apply inv_highlightMany.
  - unfold scrollToNode. keep.
  - unfold selectFromDOMNode, getIDForNode. keep.
  - unfold selectFromReactInstance. keep.
  - unfold selected, nodes_get. keep.
  - apply holds_modify; auto.
Qed.

Lemma inv_final o s s' :
  allowed forgettable o → I s → final (exec o s) = Some s' → I s'.
Proof.
  intros Ho Hs Hf. generalize (inv_exec o Ho s Hs).
  destruct (exec o s); simpl in Hf; simplify_eq; tauto.
Qed.

Lemma inv_run os s : Forall (allowed forgettable) os → I s → I (run os s).
Proof.
  intros Hos. revert s. induction Hos as [|o os Ho _ IH]; intros s Hs; [done|].
  simpl. destruct (final (exec o s)) as [s'|] eqn:Hf; [|done].
  apply IH. by eapply inv_final.
Qed.
End registry_invariant.

(** * The claims *)

(** ** C9: [getId] is idempotent until the handle is forgotten *)

Lemma getId_registers (h : loc) (s s1 : State) (i : val) :
  getId (VRef h) s = Ret i s1 → ids s1 !! h = Some i.
Proof.
  destruct (ids s !! h) as [j|] eqn:Hh.
  - rewrite (getId_known _ _ _ Hh). by intros [= <- <-].
  - rewrite (getId_fresh _ _ Hh). intros [= <- <-]. simpl.
    by rewrite lookup_insert_eq.
Qed.

Lemma tracked_getId (h : loc) (i element : val) :
  holds (fun s => ids s !! h = Some i) (getId element) any.
Proof.
  intros s Hs. destruct element as [| | | | | |l];
    try (by rewrite getId_primitive); [by rewrite getId_null|].
  destruct (ids s !! l) as [j|] eqn:Hl.
  - by rewrite (getId_known _ _ _ Hl).
  - rewrite (getId_fresh _ _ Hl). split; [|done]. simpl.
    rewrite lookup_insert_ne; [done|congruence].
Qed.

Lemma tracked_forget (h : loc) (i c : val) :
  c ≠ VRef h → holds (fun s => ids s !! h = Some i) (ids_delete c) any.
Proof.
  intros Hc. destruct c as [| | | | | |l]; try (by apply holds_ret).
  apply holds_modify. intros s Hs. simpl.
  rewrite lookup_delete_ne; [done|congruence].
Qed.

Lemma tracked_run (h : loc) (i : val) (os : list op) (s : State) :
  OnUnmounted (VRef h) ∉ os →
  ids s !! h = Some i → ids (run os s) !! h = Some i.
Proof.
  intros Hos.
  apply (inv_run (fun s => ids s !! h = Some i) (fun c => c ≠ VRef h));
    try done.
  - apply tracked_getId.
  - apply tracked_forget.
  - apply Forall_forall. intros o Ho. destruct o; try done.
    simpl. intros ->. done.
Qed.

(** C9.  Once [getId] has answered [i] for an object handle, and as long as
    the handle is not unmounted, whatever else is called, [getId] answers [i]
    again and changes nothing in the Backend. *)
Theorem getId_idempotent (h : loc) (s s1 : State) (i : val) (os : list op) :
  getId (VRef h) s = Ret i s1 →
  OnUnmounted (VRef h) ∉ os →
  getId (VRef h) (run os s1) = Ret i (run os s1).
Proof.
  intros Hreg Hos. apply getId_known, tracked_run; [done|].
  by eapply getId_registers.
Qed.

Lemma getId_idempotent_witness :
  let s := init host_heap distinct_draws in
  let os := [OnMounted (VRef 0%nat) (VRef 1%nat); AddRoot (VRef 4%nat);
             SetProps (VStr "3a9e01c2b7") ["x"] (VNum 5)] in
  getId (VRef 0%nat) (run os (register 0%nat s))
  = Ret (VStr "3a9e01c2b7") (run os (register 0%nat s)).
Proof.
  intros s os.
  apply (getId_idempotent 0%nat s (register 0%nat s) (VStr "3a9e01c2b7") os).
  - reflexivity.
  - intros H. repeat (apply elem_of_cons in H as [H|H]; [discriminate|]).
    by apply elem_of_nil in H.
Defined.

(** ** C2: the order of the steps of [onUnmounted] *)

Lemma not_elem_of_removed (i : val) (r : gset val) : i ∉ r ∖ {[i]}.
Proof.
  intros [_ Hi]%elem_of_difference. apply Hi. by apply elem_of_singleton.
Qed.

(** C2.  For a tracked handle, [onUnmounted] returns, having emitted one
    event, [unmount], with the Identifier of the handle; when the event is
    emitted the Identifier is in neither the Node Store nor the Root Set and
    the handle is still registered under it; when the method returns the
    handle is registered no more. *)
Theorem onUnmounted_order (s : State) (h : loc) (i : val) :
  ids s !! h = Some i →
  ∃ s' e,
    onUnmounted (VRef h) s = Ret () s'
    ∧ emitted s' = (emitted s ++ [e])%list
    ∧ ev_name e = "unmount" ∧ ev_data e = i
    ∧ v_nodes (ev_view e) !! i = None
    ∧ (i ∉ v_roots (ev_view e))
    ∧ v_ids (ev_view e) !! h = Some i
    ∧ nodes s' !! i = None ∧ (i ∉ roots s') ∧ ids s' !! h = None.
Proof.
  intros Hh. unfold onUnmounted, bind. rewrite (getId_known _ _ _ Hh).
  simpl. eexists _, _. split; [reflexivity|]. simpl.
  repeat split; try done; try apply lookup_delete_eq;
    apply not_elem_of_removed.
Qed.

Lemma onUnmounted_order_witness :
  ∃ s' e,
    onUnmounted (VRef 0%nat) mounted = Ret () s'
    ∧ emitted s' = (emitted mounted ++ [e])%list
    ∧ ev_name e = "unmount" ∧ ev_data e = VStr "3a9e01c2b7"
    ∧ v_nodes (ev_view e) !! VStr "3a9e01c2b7" = None
    ∧ (VStr "3a9e01c2b7" ∉ v_roots (ev_view e))
    ∧ v_ids (ev_view e) !! 0%nat = Some (VStr "3a9e01c2b7")
    ∧ nodes s' !! VStr "3a9e01c2b7" = None
    ∧ (VStr "3a9e01c2b7" ∉ roots s')
    ∧ ids s' !! 0%nat = None.
Proof.
  apply (onUnmounted_order mounted 0%nat (VStr "3a9e01c2b7")).
  vm_compute. reflexivity.
Defined.

(** ** C1 and C8: the registry *)

Lemma drawn_S (s : State) :
  drawn (set_draws (S (draws s)) s) = (drawn s ++ [entropy s (draws s)])%list.
Proof.
  unfold drawn. cbn [set_draws draws entropy]. by rewrite seq_S, map_app.
Qed.

Lemma drawn_lookup (s : State) (k : nat) :
  (k < draws s)%nat → drawn s !! k = Some (entropy s k).
Proof.
  intros Hk. unfold drawn. rewrite list_lookup_fmap, lookup_seq_lt by done.
  done.
Qed.

Lemma drawn_distinct (s : State) (j k : nat) :
  NoDup (drawn s) → (j < draws s)%nat → (k < draws s)%nat →
  entropy s j = entropy s k → j = k.
Proof.
  intros Hnd Hj Hk Hjk. eapply NoDup_lookup; [done|by apply drawn_lookup|].
  rewrite Hjk. by apply drawn_lookup.
Qed.

Lemma drawn_prefix (s s' : State) :
  entropy s' = entropy s → (draws s ≤ draws s')%nat →
  NoDup (drawn s') → NoDup (drawn s).
Proof.
  intros He Hd. unfold drawn. rewrite He.
  replace (draws s') with (draws s + (draws s' - draws s))%nat by lia.
  rewrite seq_app, map_app. by intros [? _]%NoDup_app.
Qed.

Lemma registry_ok_getId (element : val) : holds registry_ok (getId element) any.
Proof.
  intros s Hs. destruct element as [| | | | | |l];
    try (by rewrite getId_primitive).
  - rewrite getId_null. intros Hnd. rewrite drawn_S in Hnd.
    apply NoDup_app in Hnd as (Hnd & _ & _). destruct (Hs Hnd) as [HA HB].
    split; [done|]. intros i Hi. destruct (HB i Hi) as (k & Hk & ->).
    exists k. simpl. split; [lia|done].
  - destruct (ids s !! l) as [j|] eqn:Hl.
    { by rewrite (getId_known _ _ _ Hl). }
    rewrite (getId_fresh _ _ Hl). split; [|done]. intros Hnd.
    assert (Hnd' : NoDup (drawn (set_draws (S (draws s)) s))) by exact Hnd.
    rewrite drawn_S in Hnd'. apply NoDup_app in Hnd' as (Hnd0 & _ & _).
    destruct (Hs Hnd0) as [HA HB]. split.
    + intros h i. simpl. destruct (decide (l = h)) as [->|Hne].
      * rewrite lookup_insert_eq. intros [= <-]. by rewrite lookup_insert_eq.
      * rewrite lookup_insert_ne by done. intros Hh.
        rewrite lookup_insert_ne; [by apply HA|].
        intros <-. destruct (HB _ (ex_intro _ _ (HA _ _ Hh))) as (k & Hk & Heq).
        injection Heq as Heq.
        assert (draws s = k); [|lia].
        apply (drawn_distinct (set_draws (S (draws s)) s)); simpl;
          [done|lia|lia|done].
    + intros i. simpl. destruct (decide (VStr (entropy s (draws s)) = i)) as [<-|Hne].
      * exists (draws s). split; [lia|done].
      * rewrite lookup_insert_ne by done. intros Hi.
        destruct (HB i Hi) as (k & Hk & ->). exists k. split; [lia|done].
Qed.

Lemma registry_ok_forget (c : val) : holds registry_ok (ids_delete c) any.
Proof.
  destruct c as [| | | | | |l]; try (by apply holds_ret).
  apply holds_modify. intros s Hs Hnd. destruct (Hs Hnd) as [HA HB].
  split; [|done]. intros h i. simpl. intros [_ Hh]%lookup_delete_Some.
  by apply HA.
Qed.

Lemma reachable_registry_ok (s : State) : reachable s → registry_ok s.
Proof.
  induction 1 as [h e|s o s' _ IH Hf].
  - intros _. split.
    + intros l i. simpl. by rewrite lookup_empty.
    + intros i. simpl. rewrite lookup_empty. by intros [? ?].
  - apply (inv_final registry_ok (fun _ => True)) with o s; try done.
    + apply registry_ok_getId.
    + intros c _. apply registry_ok_forget.
    + by destruct o.
Qed.

Lemma reachable_run (os : list op) (s : State) :
  reachable s → reachable (run os s).
Proof.
  revert s. induction os as [|o os IH]; intros s Hs; [done|].
  simpl. destruct (final (exec o s)) as [s'|] eqn:Hf; [|done].
  apply IH. by eapply reach_step.
Qed.

(** C1, amended.  In a reachable state where the draws of [randid] made so
    far are pairwise distinct, a handle that [ids] maps to an Identifier is
    the handle that [comps] maps this Identifier to; no two handles share an
    Identifier. *)
Theorem ids_comps_inverse (s : State) (h : loc) (i : val) :
  reachable s → NoDup (drawn s) →
  ids s !! h = Some i →
  comps s !! i = Some (VRef h)
  ∧ ∀ h', ids s !! h' = Some i → h' = h.
Proof.
  intros Hs Hnd Hh. destruct (reachable_registry_ok s Hs Hnd) as [HA _].
  split; [by apply HA|]. intros h' Hh'.
  apply HA in Hh, Hh'. congruence.
Qed.

Lemma mounted_reachable : reachable mounted.
Proof. apply reachable_run, reach_init. Qed.

Lemma ids_comps_inverse_witness :
  comps mounted !! VStr "3a9e01c2b7" = Some (VRef 0%nat)
  ∧ ∀ h', ids mounted !! h' = Some (VStr "3a9e01c2b7") → h' = 0%nat.
Proof.
  apply (ids_comps_inverse mounted 0%nat (VStr "3a9e01c2b7")).
  - exact mounted_reachable.
  - vm_compute. apply NoDup_singleton.
  - vm_compute. reflexivity.
Defined.

(** C1 as stated fails: after a mount and the unmount of the same handle,
    [comps] still maps the Identifier to the handle and [ids] no longer knows
    the handle. *)
Lemma ids_comps_not_inverse :
  ¬ (∀ s h i, reachable s →
       (comps s !! i = Some (VRef h) ↔ ids s !! h = Some i)).
Proof.
  intros H.
  assert (Hr : reachable unmounted) by apply reachable_run, reach_init.
  destruct (H unmounted 0%nat (VStr "3a9e01c2b7") Hr) as [H1 _].
  assert (Hc : comps unmounted !! VStr "3a9e01c2b7" = Some (VRef 0%nat))
    by (vm_compute; reflexivity).
  specialize (H1 Hc). vm_compute in H1. discriminate.
Qed.


(** With a repeated draw the other direction fails too: the second handle
    takes the entry of the first in [comps]. *)
Example registry_collision :
  reachable collided
  ∧ ids collided !! 0%nat = Some (VStr "3a9e01c2b7")
  ∧ comps collided !! VStr "3a9e01c2b7" = Some (VRef 4%nat).
Proof.
  split; [apply reachable_run, reach_init|].
  split; vm_compute; reflexivity.
Qed.

Lemma later_getId (s0 : State) (element : val) :
  registry_ok s0 → holds (later s0) (getId element) any.
Proof.
  intros H0 s (He & Hd & Hc). destruct element as [| | | | | |l];
    try (by rewrite getId_primitive).
  - rewrite getId_null. split; [done|]. split; [simpl; lia|].
    intros Hnd. apply Hc. rewrite drawn_S in Hnd.
    by apply NoDup_app in Hnd as (? & _ & _).
  - destruct (ids s !! l) as [j|] eqn:Hl.
    { by rewrite (getId_known _ _ _ Hl). }
    rewrite (getId_fresh _ _ Hl). split; [|done].
    split; [done|]. split; [simpl; lia|]. intros Hnd i v Hi.
    assert (Hnd' : NoDup (drawn (set_draws (S (draws s)) s))) by exact Hnd.
    assert (Hnds : NoDup (drawn s)).
    { rewrite drawn_S in Hnd'. by apply NoDup_app in Hnd' as (? & _ & _). }
    simpl. rewrite lookup_insert_ne; [by apply Hc|].
    intros <-.
    destruct (H0 (drawn_prefix _ _ He Hd Hnds)) as [_ HB].
    destruct (HB _ (ex_intro _ _ Hi)) as (k & Hk & Heq).
    injection Heq as Heq. rewrite <- He in Heq.
    assert (draws s = k); [|lia].
    apply (drawn_distinct (set_draws (S (draws s)) s)); simpl;
      [done|lia|lia|done].
Qed.

Lemma later_forget (s0 : State) (c : val) : holds (later s0) (ids_delete c) any.
Proof.
  destruct c as [| | | | | |l]; first [by apply holds_modify|by apply holds_ret].
Qed.

Lemma later_run (os : list op) (s : State) :
  registry_ok s → later s (run os s).
Proof.
  intros Hs. apply (inv_run (later s) (fun _ => True)); try done.
  - intros element. by apply later_getId.
  - intros c _. apply later_forget.
  - apply Forall_forall. intros o _. by destruct o.
Qed.

Lemma getId_reachable (element i : val) (s s' : State) :
  reachable s → getId element s = Ret i s' → reachable s'.
Proof.
  intros Hs Hg. apply reach_step with s (GetId element); [done|].
  simpl. unfold bind. by rewrite Hg.
Qed.

(** C8, amended.  Provided no two draws of [randid] made in the run are the
    same: the Identifier that [getId] answers for an object handle is not
    answered later for another handle, nor for the same handle after it has
    been forgotten. *)
Theorem identifier_not_reused
    (s s1 s2 : State) (h h' : loc) (i i' : val) (os : list op) :
  reachable s →
  getId (VRef h) s = Ret i s1 →
  getId (VRef h') (run os s1) = Ret i' s2 →
  NoDup (drawn s2) →
  h' ≠ h ∨ ids (run os s1) !! h = None →
  i' ≠ i.
Proof.
  intros Hs Hg1 Hg2 Hnd2 Hcase.
  assert (Hr1 : reachable s1) by by eapply getId_reachable.
  assert (Hr : reachable (run os s1)) by by apply reachable_run.
  destruct (later_run os s1 (reachable_registry_ok _ Hr1)) as (He & Hd & Hc).
  set (s' := run os s1) in *.
  assert (Hnd : NoDup (drawn s')).
  { destruct (ids s' !! h') as [j|] eqn:Hh'.
    - rewrite (getId_known _ _ _ Hh') in Hg2. by injection Hg2 as _ <-.
    - rewrite (getId_fresh _ _ Hh') in Hg2. injection Hg2 as _ <-.
      assert (Hnd' : NoDup (drawn (set_draws (S (draws s')) s'))) by exact Hnd2.
      rewrite drawn_S in Hnd'. by apply NoDup_app in Hnd' as (? & _ & _). }
  assert (Hnd1 : NoDup (drawn s1)) by by eapply drawn_prefix.
  destruct (reachable_registry_ok _ Hr1 Hnd1) as [HA1 _].
  destruct (reachable_registry_ok _ Hr Hnd) as [HA HB].
  assert (Hi : comps s' !! i = Some (VRef h)).
  { apply Hc; [done|]. by apply HA1, getId_registers with s. }
  intros ->. destruct (ids s' !! h') as [j|] eqn:Hh'.
  - rewrite (getId_known _ _ _ Hh') in Hg2. injection Hg2 as -> _.
    apply HA in Hh' as Hi'. rewrite Hi in Hi'. injection Hi' as ->.
    destruct Hcase as [Hne|Hnone]; [done|congruence].
  - rewrite (getId_fresh _ _ Hh') in Hg2. injection Hg2 as <- <-.
    destruct (HB _ (ex_intro _ _ Hi)) as (k & Hk & Heq).
    injection Heq as Heq.
    assert (draws s' = k); [|lia].
    apply (drawn_distinct (set_draws (S (draws s')) s')); simpl;
      [done|lia|lia|done].
Qed.

Lemma identifier_not_reused_witness :
  let s := init host_heap distinct_draws in
  let s1 := register 0%nat s in
  let s' := run [OnUnmounted (VRef 0%nat)] s1 in
  getId (VRef 0%nat) s = Ret (VStr "3a9e01c2b7") s1
  ∧ ids s' !! 0%nat = None
  ∧ getId (VRef 0%nat) s' = Ret (VStr "5d0b7e44a1") (register 0%nat s')
  ∧ VStr "5d0b7e44a1" ≠ VStr "3a9e01c2b7".
Proof.
  intros s s1 s'.
  assert (H1 : getId (VRef 0%nat) s = Ret (VStr "3a9e01c2b7") s1)
    by reflexivity.
  assert (Hf : ids s' !! 0%nat = None) by (vm_compute; reflexivity).
  assert (H2 : getId (VRef 0%nat) s'
               = Ret (VStr "5d0b7e44a1") (register 0%nat s'))
    by (vm_compute; reflexivity).
  repeat split; try assumption.
  apply (identifier_not_reused s s1 (register 0%nat s') 0%nat 0%nat
           (VStr "3a9e01c2b7") (VStr "5d0b7e44a1")
           [OnUnmounted (VRef 0%nat)]).
  - apply reach_init.
  - exact H1.
  - exact H2.
  - vm_compute. apply NoDup_cons. split; [|apply NoDup_singleton].
    intros H. apply list_elem_of_singleton in H. discriminate.
  - right. exact Hf.
Defined.

(** C8 as stated fails when [randid] draws the same string twice: two
    handles tracked together are given one Identifier, and a handle
    forgotten and registered again is given the Identifier it had. *)
Lemma identifiers_collide :
  reachable collided
  ∧ getId (VRef 0%nat) collided = Ret (VStr "3a9e01c2b7") collided
  ∧ getId (VRef 4%nat) collided = Ret (VStr "3a9e01c2b7") collided
  ∧ reachable forgotten
  ∧ comps forgotten !! VStr "3a9e01c2b7" = Some (VRef 0%nat)
  ∧ ids forgotten !! 0%nat = None
  ∧ ∃ s', getId (VRef 0%nat) forgotten = Ret (VStr "3a9e01c2b7") s'.
Proof.
  split; [apply reachable_run, reach_init|].
  split; [apply getId_known; vm_compute; reflexivity|].
  split; [apply getId_known; vm_compute; reflexivity|].
  split; [apply reachable_run, reach_init|].
  split; [vm_compute; reflexivity|].
  split; [vm_compute; reflexivity|].
  eexists. apply getId_fresh. vm_compute. reflexivity.
Qed.


(** ** C5 and C6: the Path Accessor *)

Lemma setIn_unfold (obj : val) (path : list string) (name : string)
    (value : val) (s : State) :
  setIn obj (path ++ [name]) value s
  = if decide (walk (heap s) obj path = VNull) then Ret false s
    else (write_prop (walk (heap s) obj path) name value ;;; ret true) s.
Proof.
  unfold setIn. rewrite last_snoc, removelast_last. simpl.
  unfold bind, gets. by destruct (decide _).
Qed.

(** C5, on the code.  When the walk to the last container ends on
    [undefined] (the container before it has no such key), [setIn] throws:
    only [null] is tested before the write. *)
Theorem setIn_undefined_parent_throws
    (s : State) (root : val) (path : list string) (name : string) (value : val) :
  walk (heap s) root path = VUndef →
  setIn root (path ++ [name]) value s = Throw s.
Proof. intros Hw. rewrite setIn_unfold, Hw. reflexivity. Qed.

(** When the walk ends on [null] (a container two steps or more before the
    end is missing, or a property is [null]) [setIn] does return [false],
    and changes nothing. *)
Lemma setIn_null_parent (s : State) (root : val) (path : list string)
    (name : string) (value : val) :
  walk (heap s) root path = VNull →
  setIn root (path ++ [name]) value s = Ret false s.
Proof. intros Hw. rewrite setIn_unfold, Hw. reflexivity. Qed.

Lemma setIn_undefined_parent_throws_witness :
  let s := init host_heap distinct_draws in
  walk (heap s) (VRef 0%nat) ["a"] = VUndef
  ∧ setIn (VRef 0%nat) ["a"; "b"] (VNum 1) s = Throw s.
Proof.
  intros s.
  assert (H : walk (heap s) (VRef 0%nat) ["a"] = VUndef)
    by (vm_compute; reflexivity).
  split; [exact H|].
  exact (setIn_undefined_parent_throws s (VRef 0%nat) ["a"] "b" (VNum 1) H).
Defined.

Lemma index_of_key_inj (k k' : string) (i : nat) :
  index_of_key k = Some i → index_of_key k' = Some i → k = k'.
Proof.
  unfold index_of_key. intros H H'.
  destruct (NilEmpty.uint_of_string k) as [u|]; [|done].
  destruct (NilEmpty.uint_of_string k') as [u'|]; [|done].
  destruct (String.eqb _ k) eqn:E; [|done].
  destruct (String.eqb _ k') eqn:E'; [|done].
  apply String.eqb_eq in E, E'. congruence.
Qed.

Lemma array_index_key (k : string) (i : nat) :
  array_index k = Some i → index_of_key k = Some i.
Proof.
  unfold array_index. destruct (index_of_key k) as [j|]; [|done].
  by destruct (Z.ltb _ _).
Qed.

Lemma write_index_lookup (i : nat) (v : val) (elems : list val) :
  write_index i v elems !! i = Some v.
Proof.
  unfold write_index. destruct (decide _) as [Hlt|Hge].
  - by apply list_lookup_insert_eq.
  - rewrite lookup_app_r by lia. rewrite lookup_app_r.
    + rewrite length_replicate. by replace (_ - _ - _)%nat with 0%nat by lia.
    + rewrite length_replicate. lia.
Qed.

Lemma write_index_lookup_ne (i j : nat) (v : val) (elems : list val) :
  i ≠ j →
  default VUndef (write_index i v elems !! j) = default VUndef (elems !! j).
Proof.
  intros Hne. unfold write_index. destruct (decide _) as [Hlt|Hge].
  - by rewrite list_lookup_insert_ne.
  - destruct (decide (j < length elems)%nat) as [Hj|Hj].
    + by rewrite lookup_app_l.
    + rewrite (lookup_ge_None_2 elems j) by lia.
      rewrite lookup_app_r by lia.
      destruct (decide (j < i)%nat) as [Hji|Hji].
      * rewrite lookup_app_l by (rewrite length_replicate; lia).
        rewrite lookup_replicate_2; [done|lia].
      * rewrite lookup_ge_None_2; [done|].
        rewrite length_app, length_replicate. simpl. lia.
Qed.

Lemma array_index_inj (k k' : string) (i : nat) :
  array_index k = Some i → array_index k' = Some i → k = k'.
Proof.
  intros H H'. eapply index_of_key_inj; by apply array_index_key.
Qed.

Lemma cell_get_set (c c' : cell) (k : string) (v : val) :
  cell_set c k v = Some c' → cell_get c' k = v.
Proof.
  destruct c as [props|elems named]; simpl.
  - intros [= <-]. simpl. by rewrite lookup_insert_eq.
  - destruct (array_index k) as [i|] eqn:Hi.
    + intros [= <-]. simpl. rewrite Hi. by rewrite write_index_lookup.
    + destruct (String.eqb k "length") eqn:Hk; [done|].
      intros [= <-]. simpl. rewrite Hi, Hk. by rewrite lookup_insert_eq.
Qed.

Lemma cell_get_set_ne (c c' : cell) (k k' : string) (v : val) :
  cell_set c k v = Some c' → k' ∉ touched c k →
  cell_get c' k' = cell_get c k'.
Proof.
  destruct c as [props|elems named]; simpl.
  - intros [= <-] Hne. simpl. rewrite lookup_insert_ne; [done|].
    intros ->. apply Hne. by left.
  - destruct (array_index k) as [i|] eqn:Hi.
    + intros [= <-] Hne. simpl.
      destruct (array_index k') as [j|] eqn:Hj.
      * apply write_index_lookup_ne. intros <-. apply Hne.
        rewrite (array_index_inj k' k i Hj Hi).
        destruct (decide _); by left.
      * destruct (String.eqb k' "length") eqn:Hk; [|done].
        apply String.eqb_eq in Hk as ->. unfold write_index.
        destruct (decide _) as [Hlt|Hge]; [by rewrite length_insert|].
        exfalso. apply Hne. right. by left.
    + destruct (String.eqb k "length") eqn:Hk; [done|].
      intros [= <-] Hne. simpl.
      destruct (array_index k') as [j|]; [done|].
      destruct (String.eqb k' "length"); [done|].
      rewrite lookup_insert_ne; [done|]. intros ->. apply Hne. by left.
Qed.

(** A write to a slot that the walk does not read leaves the walk as it
    was. *)
Lemma walk_write (h : gmap loc cell) (l : loc) (c c' : cell)
    (name : string) (value : val) (path : list string) (root : val) :
  h !! l = Some c → cell_set c name value = Some c' →
  (∀ k, k ∈ touched c name → (VRef l, k) ∉ reads h root path) →
  walk (<[l := c']> h) root path = walk h root path.
Proof.
  intros Hl Hset. revert root.
  induction path as [|attr rest IH]; intros root Hr; [done|].
  unfold walk. simpl.
  assert (Hstep : reduce_step (<[l := c']> h) root attr = reduce_step h root attr).
  { unfold reduce_step. destruct (truthy root); [|done].
    destruct root as [| | | | | |l']; try done. simpl.
    destruct (decide (l = l')) as [<-|Hll].
    - rewrite lookup_insert_eq, Hl. eapply cell_get_set_ne; [done|].
      intros Hk. apply (Hr _ Hk). by left.
    - by rewrite lookup_insert_ne. }
  rewrite Hstep. apply IH. intros k Hk Hin. apply (Hr _ Hk). by right.
Qed.

(** A walk that leaves the heap does not come back to it: from a value
    that is no object, no object is reached. *)
Lemma walk_off_heap (h : gmap loc cell) (v : val) (path : list string)
    (l : loc) :
  (∀ l', v ≠ VRef l') → walk h v path ≠ VRef l.
Proof.
  revert v. induction path as [|attr rest IH]; intros v Hv; [by apply Hv|].
  unfold walk. simpl. apply IH. intros l'. unfold reduce_step.
  destruct (truthy v); [|done].
  destruct v as [| | | |str| |l0]; try done; [|by destruct (Hv l0)].
  simpl. unfold string_get. destruct (index_of_key attr).
  - by destruct (String.get _ str).
  - by destruct (String.eqb attr "length").
Qed.

(** Every read on a walk that ends on an object has returned an object. *)
Lemma walk_reads_objects (h : gmap loc cell) (root : val)
    (path : list string) (l l0 : loc) (k : string) :
  walk h root path = VRef l0 →
  (VRef l, k) ∈ reads h root path →
  ∃ l1, prop_get h (VRef l) k = VRef l1.
Proof.
  revert root. induction path as [|attr rest IH]; intros root Hw Hin.
  { by apply elem_of_nil in Hin. }
  simpl in Hin. apply elem_of_cons in Hin as [[= <- <-]|Hin].
  - assert (Hw' : walk h (prop_get h (VRef l) k) rest = VRef l0) by exact Hw.
    clear IH Hw.
    destruct (prop_get h (VRef l) k) as [| | | | | |l1]; [..|by exists l1];
      exfalso; by eapply walk_off_heap; [|exact Hw'].
  - by apply (IH (reduce_step h root attr)).
Qed.

(** On a walk that ends on the container written, what the write changes
    beside its slot, the [length] of an array, is not read. *)
Lemma touched_not_read (h : gmap loc cell) (root : val) (path : list string)
    (l : loc) (c : cell) (name k : string) :
  walk h root path = VRef l →
  h !! l = Some c →
  (VRef l, name) ∉ reads h root path →
  k ∈ touched c name → (VRef l, k) ∉ reads h root path.
Proof.
  intros Hw Hl Hr Hk Hin. destruct c as [props|elems named]; simpl in Hk.
  - apply list_elem_of_singleton in Hk as ->. by apply Hr.
  - assert (Hcases : k = name ∨ k = "length").
    { destruct (array_index name) as [i|].
      - destruct (decide _).
        + left. by apply list_elem_of_singleton in Hk.
        + apply elem_of_cons in Hk as [->|Hk]; [by left|].
          right. by apply list_elem_of_singleton in Hk.
      - left. by apply list_elem_of_singleton in Hk. }
    destruct Hcases as [->| ->]; [by apply Hr|].
    destruct (walk_reads_objects _ _ _ _ _ _ Hw Hin) as [l1 Hl1].
    simpl in Hl1. rewrite Hl in Hl1. done.
Qed.

Lemma own_write_cell_set (c : cell) (name : string) (value : val) :
  own_write c name → is_Some (cell_set c name value).
Proof.
  destruct c as [props|elems named]; simpl; [by eexists|].
  intros [_ Hlen]. destruct (array_index name); [by eexists|].
  destruct (String.eqb name "length") eqn:Hk; [|by eexists].
  by apply String.eqb_eq in Hk.
Qed.

(** C6, amended.  When the walk along all keys but the last ends on a plain
    object or on an array, the last key is neither [__proto__] nor the
    [length] of an array, and the slot written is not one of the slots read
    on the way, [setIn] returns [true] and [getIn] along the whole path then
    returns the value written.  On an array the last key may be the index of
    an element, an index past the end (the array grows) or any other
    name. *)
Theorem setIn_then_getIn
    (s : State) (root : val) (path : list string) (name : string)
    (value : val) (l : loc) (c : cell) :
  walk (heap s) root path = VRef l →
  heap s !! l = Some c →
  own_write c name →
  (VRef l, name) ∉ reads (heap s) root path →
  ∃ s',
    setIn root (path ++ [name]) value s = Ret true s'
    ∧ getIn root (path ++ [name]) s' = Ret value s'.
Proof.
  intros Hw Hl Hown Hr.
  destruct (own_write_cell_set c name value Hown) as [c' Hset].
  eexists. split.
  - rewrite setIn_unfold, Hw. simpl. unfold bind, write_prop.
    rewrite Hl, Hset. reflexivity.
  - unfold getIn, gets. f_equal. simpl. unfold walk. rewrite foldl_snoc.
    fold (walk (<[l := c']> (heap s)) root path).
    rewrite (walk_write _ _ _ _ _ _ _ _ Hl Hset), Hw.
    + unfold reduce_step. simpl. rewrite lookup_insert_eq.
      by eapply cell_get_set.
    + intros k Hk. by eapply touched_not_read.
Qed.

Lemma setIn_then_getIn_witness :
  let s := init host_heap distinct_draws in
  (∃ s',
     setIn (VRef 1%nat) ["props"; "x"] (VNum 5) s = Ret true s'
     ∧ getIn (VRef 1%nat) ["props"; "x"] s' = Ret (VNum 5) s')
  ∧ ∃ s',
      setIn (VRef 7%nat) ["children"; "4"] (VStr "more") s = Ret true s'
      ∧ getIn (VRef 7%nat) ["children"; "4"] s' = Ret (VStr "more") s'.
Proof.
  intros s. split.
  - apply (setIn_then_getIn s (VRef 1%nat) ["props"] "x" (VNum 5) 2%nat
             (CObj {[ "x" := VNum 1 ]})).
    + vm_compute. reflexivity.
    + vm_compute. reflexivity.
    + discriminate.
    + vm_compute. intros H. apply list_elem_of_singleton in H. discriminate.
  - apply (setIn_then_getIn s (VRef 7%nat) ["children"] "4" (VStr "more")
             8%nat (CArr [VRef 4%nat; VStr "text"; VRef 0%nat] ∅)).
    + vm_compute. reflexivity.
    + vm_compute. reflexivity.
    + split; discriminate.
    + vm_compute. intros H. apply list_elem_of_singleton in H. discriminate.
Defined.

(** C6 as stated fails on an object that is its own property: every
    container on the path is there, [setIn] returns [true], and [getIn] does
    not find the value. *)
Lemma setIn_getIn_cyclic :
  let s := init cyclic_heap distinct_draws in
  walk (heap s) (VRef 0%nat) ["a"] = VRef 0%nat
  ∧ ∃ s',
      setIn (VRef 0%nat) ["a"; "a"] (VNum 5) s = Ret true s'
      ∧ getIn (VRef 0%nat) ["a"; "a"] s' = Ret VUndef s'.
Proof.
  intros s. split; [vm_compute; reflexivity|].
  eexists. split; vm_compute; reflexivity.
Qed.

(** ** C7 and C3: the mutation commands *)

(** C7, on the code.  [_setProps], [_setState] and [_setContext] on an
    Identifier that the Node Store does not know throw: the snapshot is
    [undefined] and its field is read. *)
Theorem set_field_unknown_id_throws
    (s : State) (id : val) (path : list string) (value : val) :
  nodes s !! id = None →
  _setProps id path value s = Throw s
  ∧ _setState id path value s = Throw s
  ∧ _setContext id path value s = Throw s.
Proof.
  intros Hid. unfold _setProps, _setState, _setContext, set_field.
  unfold bind, nodes_get, gets. rewrite Hid. by repeat split.
Qed.

Lemma set_field_unknown_id_throws_witness :
  let s := init host_heap distinct_draws in
  _setProps (VStr "stale") ["x"] (VNum 5) s = Throw s
  ∧ _setState (VStr "stale") ["x"] (VNum 5) s = Throw s
  ∧ _setContext (VStr "stale") ["x"] (VNum 5) s = Throw s.
Proof.
  intros s.
  apply (set_field_unknown_id_throws s (VStr "stale") ["x"] (VNum 5)).
  reflexivity.
Defined.

(** [highlight] throws as well on an Identifier that [comps] knows and the
    Node Store does not, here that of a root not mounted yet. *)
Example highlight_unrecorded_throws :
  nodes rooted !! VStr "3a9e01c2b7" = None
  ∧ ∃ s', highlight (VStr "3a9e01c2b7") rooted = Throw s'.
Proof. split; [vm_compute; reflexivity|]. eexists. vm_compute. reflexivity. Qed.

(** On an Identifier that [comps] does not know, [highlight] does nothing
    and [scrollToNode] logs a warning: these two do not throw. *)
Lemma highlight_unresolved (s : State) (id : val) :
  comps s !! id = None → highlight id s = Ret () s.
Proof.
  intros Hid. unfold highlight, nodes_get, getNodeForID, comps_get, gets, bind.
  by rewrite Hid.
Qed.

Lemma scrollToNode_unresolved (s : State) (id : val) :
  comps s !! id = None →
  scrollToNode id s
  = Ret () (set_console
              (console s ++ ["unable to get the node for scrolling"]) s).
Proof.
  intros Hid. unfold scrollToNode, getNodeForID, comps_get, gets, bind.
  by rewrite Hid.
Qed.

(** C3, on the code.  On a snapshot without updater, or whose updater has no
    [forceUpdate], [_setProps], [_setState] and [_setContext] ([set_field] at
    [props], [state] and [context]) log their warning, emit nothing and call
    nothing, but the value is written into the field of the stored snapshot
    before the updater is looked for. *)
Theorem set_field_without_trigger_writes
    (field warning : string) (s : State) (id : val) (d t : loc)
    (snapshot target : gmap string val) (key : string) (value : val) :
  nodes s !! id = Some (VRef d) →
  heap s !! d = Some (CObj snapshot) →
  lacks_trigger (heap s) snapshot t →
  snapshot !! field = Some (VRef t) →
  heap s !! t = Some (CObj target) →
  d ≠ t →
  rejected_after_write (set_field field warning id [key] value) warning
    s id d t key value.
Proof.
  intros Hid Hd Hu Hp Ht Hne. eexists. split.
  - unfold set_field, bind, nodes_get, gets. rewrite Hid. simpl.
    rewrite Hd. simpl. rewrite Hp. simpl.
    unfold setIn, bind, gets, write_prop. simpl. rewrite Ht. simpl.
    rewrite lookup_insert_ne by done. rewrite Hd. simpl.
    destruct Hu as [Hu|(p & uprops & Hu & Hpt & Hhp & Hf)]; rewrite Hu; simpl.
    + reflexivity.
    + rewrite lookup_insert_ne by done. rewrite Hhp. simpl. rewrite Hf.
      reflexivity.
  - simpl. rewrite lookup_insert_eq. simpl. rewrite lookup_insert_eq.
    by repeat split.
Qed.

Lemma set_field_without_trigger_writes_witness :
  prop_get (heap mounted_plain) (VRef 6%nat) "x" = VNum 1
  ∧ rejected_after_write
      (_setProps (VStr "3a9e01c2b7") ["x"] (VNum 5))
      "trying to set props on a component that doesn't support it"
      mounted_plain (VStr "3a9e01c2b7") 5%nat 6%nat "x" (VNum 5).
Proof.
  split; [vm_compute; reflexivity|].
  apply (set_field_without_trigger_writes "props"
           "trying to set props on a component that doesn't support it"
           mounted_plain (VStr "3a9e01c2b7") 5%nat 6%nat
           {[ "name" := VStr "Bar"; "type" := VStr "div"; "props" := VRef 6%nat ]}
           {[ "x" := VNum 1 ]} "x" (VNum 5)).
  - vm_compute. reflexivity.
  - vm_compute. reflexivity.
  - left. vm_compute. reflexivity.
  - vm_compute. reflexivity.
  - vm_compute. reflexivity.
  - discriminate.
Defined.

(** ** C10: the stored snapshot is not the message *)

Lemma bind_assoc {A B C} (m : M A) (f : A → M B) (g : B → M C) (s : State) :
  bind (bind m f) g s = bind m (fun a => bind (f a) g) s.
Proof. unfold bind. by destruct (m s). Qed.

Lemma bind_ext {A B} (m : M A) (f g : A → M B) (s : State) :
  (∀ a s', f a s' = g a s') → bind m f s = bind m g s.
Proof. intros H. unfold bind. by destruct (m s). Qed.

Lemma record_and_send_unfold (ev : string) (component data : val) (s : State) :
  record_and_send ev component data s
  = (let* id := getId component in
     nodes_set id data ;;;
     let* send := assign_new data in
     map_children send ;;;
     strip_and_emit ev id send) s.
Proof.
  unfold record_and_send, map_children.
  apply bind_ext. intros id s1. apply bind_ext. intros _ s2.
  apply bind_ext. intros send s3.
  by rewrite !bind_assoc.
Qed.

Lemma identified_id_of (s : State) (v i : val) :
  identified s v i → id_of s v = i.
Proof. destruct v; simpl; try done. by intros ->. Qed.

Lemma getId_identified (s s' : State) (v i : val) :
  getId v s = Ret i s' → identified s' v i.
Proof.
  destruct v as [| | | | | |l];
    try (rewrite getId_primitive by done; by intros [= <- <-]).
  - by rewrite getId_null.
  - apply getId_registers.
Qed.

Section stored.
Context (s0 : State) (component data i : val).

Lemma stored_getId (element : val) :
  holds (stored s0 component data i) (getId element) any.
Proof.
  intros s (Hh & Hn & Hi). destruct element as [| | | | | |l];
    try (by rewrite getId_primitive); [by rewrite getId_null|].
  destruct (ids s !! l) as [j|] eqn:Hl.
  - by rewrite (getId_known _ _ _ Hl).
  - rewrite (getId_fresh _ _ Hl). split; [|done]. split; [done|].
    split; [done|]. destruct component as [| | | | | |l']; try done. simpl.
    rewrite lookup_insert_ne; [done|]. intros ->. simpl in Hi. congruence.
Qed.

Lemma stored_heap (l : loc) (c : cell) (s : State) :
  heap s0 !! l = None →
  stored s0 component data i s →
  stored s0 component data i (set_heap (<[l := c]> (heap s)) s).
Proof.
  intros Hl (Hh & Hn & Hi). split; [|done]. intros l' c' Hl'. simpl.
  rewrite lookup_insert_ne by congruence. by apply Hh.
Qed.

Lemma stored_fresh (s : State) :
  stored s0 component data i s → heap s0 !! fresh (dom (heap s)) = None.
Proof.
  intros (Hh & _). destruct (heap s0 !! _) as [c|] eqn:Hl; [|done].
  apply Hh in Hl. destruct (is_fresh (dom (heap s))).
  apply elem_of_dom. by eexists.
Qed.

Lemma stored_alloc (c : cell) :
  holds (stored s0 component data i) (alloc c) (made_since s0).
Proof.
  intros s Hs. unfold alloc. split.
  - apply stored_heap; [by apply stored_fresh|done].
  - eexists. split; [done|]. by apply stored_fresh.
Qed.

Lemma stored_assign_new (v : val) :
  holds (stored s0 component data i) (assign_new v) (made_since s0).
Proof.
  intros s Hs. unfold assign_new.
  destruct v as [| | | |str| |l]; try done; try by apply stored_alloc.
  - destruct (String.eqb str ""); [by apply stored_alloc|done].
  - destruct (heap s !! l) as [[props|elems]|]; try done.
    by apply stored_alloc.
Qed.

Lemma stored_write_prop (v : val) (k : string) (x : val) :
  made_since s0 v →
  holds (stored s0 component data i) (write_prop v k x) any.
Proof.
  intros (l & -> & Hl) s Hs. unfold write_prop.
  repeat (innermost_match; cbv beta iota zeta); try done.
  split; [|done]. by apply stored_heap.
Qed.

Lemma stored_delete_prop (v : val) (k : string) :
  made_since s0 v →
  holds (stored s0 component data i) (delete_prop v k) any.
Proof.
  intros (l & -> & Hl) s Hs. unfold delete_prop.
  repeat (innermost_match; cbv beta iota zeta); try done.
  split; [|done]. by apply stored_heap.
Qed.

Lemma stored_array_map (arr : val) :
  holds (stored s0 component data i) (array_map getId arr) (made_since s0).
Proof.
  intros s Hs. unfold array_map.
  destruct arr as [| | | | | |l]; try exact Hs.
  destruct (heap s !! l) as [[props|elems named]|]; [| |done].
  { destruct (props !! "map") as [[]|]; done. }
  destruct (named !! "map") as [[]|]; try done.
  revert s Hs.
  change (holds (stored s0 component data i)
    (let* res := alloc (CArr [] ∅) in
     let* ys := mapM getId elems in
     match res with
     | VRef r =>
         modify (fun s => set_heap (<[r := CArr ys ∅]> (heap s)) s) ;;;
         ret res
     | _ => unmodelled
     end) (made_since s0)).
  eapply holds_bind; [apply stored_alloc|intros res (r & -> & Hr)].
  eapply holds_bind; [apply holds_mapM, stored_getId|intros ys _].
  eapply holds_bind with (Q := any).
  - apply holds_modify. intros s Hs. by apply stored_heap.
  - intros _ _. apply holds_ret. by exists r.
Qed.

Lemma stored_map_children (send : val) :
  made_since s0 send →
  holds (stored s0 component data i) (map_children send) any.
Proof.
  intros Hsend. unfold map_children.
  eapply holds_bind with (Q := any); [apply inv_read_prop|intros children _].
  eapply holds_bind with (Q := any); [apply holds_gets|intros [] _].
  - eapply holds_bind; [apply stored_array_map|intros ids _].
    by apply stored_write_prop.
  - by apply holds_ret.
Qed.

Lemma stored_strip_and_emit (ev : string) (id send : val) :
  made_since s0 send →
  holds (stored s0 component data i) (strip_and_emit ev id send) any.
Proof.
  intros Hsend. unfold strip_and_emit.
  eapply holds_bind with (Q := any); [by apply stored_write_prop|intros _ _].
  eapply holds_bind with (Q := any); [apply inv_read_prop|intros updater _].
  eapply holds_bind with (Q := any).
  { destruct (truthy updater); [|by apply holds_ret].
    eapply holds_bind with (Q := any); [apply inv_read_prop|intros f _].
    by apply holds_ret. }
  intros canUpdate _.
  eapply holds_bind with (Q := any); [by apply stored_write_prop|intros _ _].
  eapply holds_bind with (Q := any); [by apply stored_delete_prop|intros _ _].
  eapply holds_bind with (Q := any); [by apply stored_delete_prop|intros _ _].
  by apply holds_modify.
Qed.
End stored.

Lemma record_and_send_keeps (ev : string) (s : State) (component data : val) :
  match record_and_send ev component data s with
  | Ret _ s' =>
      (∀ l c, heap s !! l = Some c → heap s' !! l = Some c)
      ∧ nodes s' !! id_of s' component = Some data
  | Throw s' => ∀ l c, heap s !! l = Some c → heap s' !! l = Some c
  | Unmodelled => True
  end.
Proof.
  rewrite record_and_send_unfold. unfold bind at 1.
  destruct (getId component s) as [i s1|s1|] eqn:Hg; [| |done].
  - assert (Hh : heap s1 = heap s).
    { destruct component as [| | | | | |l];
        try (rewrite getId_primitive in Hg by done; by injection Hg as _ <-);
        try done.
      destruct (ids s !! l) as [j|] eqn:Hl.
      - rewrite (getId_known _ _ _ Hl) in Hg. by injection Hg as _ <-.
      - rewrite (getId_fresh _ _ Hl) in Hg. by injection Hg as _ <-. }
    unfold bind at 1, nodes_set, modify.
    set (s2 := set_nodes _ s1).
    assert (Hs2 : stored s component data i s2).
    { split; [by intros l c; simpl; rewrite Hh|]. split.
      - simpl. by rewrite lookup_insert_eq.
      - exact (getId_identified s s1 component i Hg). }
    assert (Hrest : holds (stored s component data i)
              (let* send := assign_new data in
               map_children send ;;; strip_and_emit ev i send) any).
    { eapply holds_bind; [apply stored_assign_new|intros send Hsend].
      eapply holds_bind with (Q := any);
        [by apply stored_map_children|intros _ _].
      by apply stored_strip_and_emit. }
    specialize (Hrest s2 Hs2).
    destruct (bind (assign_new data) _ s2) as [[] s'|s'|]; [| |done].
    + destruct Hrest as [(Hh' & Hn & Hi) _]. split; [done|].
      by rewrite (identified_id_of _ _ _ Hi).
    + by destruct Hrest as (Hh' & _).
  - destruct component as [| | | | | |l];
      try (by rewrite getId_primitive in Hg).
    + rewrite getId_null in Hg. by injection Hg as <-.
    + destruct (ids s !! l) as [j|] eqn:Hl.
      * by rewrite (getId_known _ _ _ Hl) in Hg.
      * by rewrite (getId_fresh _ _ Hl) in Hg.
Qed.

(** C10.  Whether [onMounted] and [onUpdated] return or throw, every object
    that was in the heap is in it unchanged: the snapshot, its updater, its
    children array, its type tag; and when they return, the Node Store holds
    the snapshot itself, by reference, under the Identifier of the
    component. *)
Theorem stored_snapshot_unchanged (s : State) (component data : val) :
  match onMounted component data s with
  | Ret _ s' =>
      (∀ l c, heap s !! l = Some c → heap s' !! l = Some c)
      ∧ nodes s' !! id_of s' component = Some data
  | Throw s' => ∀ l c, heap s !! l = Some c → heap s' !! l = Some c
  | Unmodelled => True
  end
  ∧
  match onUpdated component data s with
  | Ret _ s' =>
      (∀ l c, heap s !! l = Some c → heap s' !! l = Some c)
      ∧ nodes s' !! id_of s' component = Some data
  | Throw s' => ∀ l c, heap s !! l = Some c → heap s' !! l = Some c
  | Unmodelled => True
  end.
Proof. split; apply record_and_send_keeps. Qed.

(** ** C4: the message sent on mount and on update *)

Lemma bind_Ret {A B} (m : M A) (k : A → M B) (s s' : State) (a : A) :
  m s = Ret a s' → bind m k s = k a s'.
Proof. intros H. unfold bind. by rewrite H. Qed.

Lemma write_prop_obj (l : loc) (m : gmap string val) (k : string) (x : val)
    (s : State) :
  heap s !! l = Some (CObj m) →
  write_prop (VRef l) k x s
  = Ret () (set_heap (<[l := CObj (<[k := x]> m)]> (heap s)) s).
Proof. intros H. unfold write_prop. by rewrite H. Qed.

Lemma delete_prop_obj (l : loc) (m : gmap string val) (k : string)
    (s : State) :
  heap s !! l = Some (CObj m) →
  delete_prop (VRef l) k s
  = Ret () (set_heap (<[l := CObj (delete k m)]> (heap s)) s).
Proof. intros H. unfold delete_prop. by rewrite H. Qed.

Lemma read_prop_obj (l : loc) (m : gmap string val) (k : string) (s : State) :
  heap s !! l = Some (CObj m) →
  read_prop (VRef l) k s = Ret (default VUndef (m !! k)) s.
Proof. intros H. unfold read_prop, gets. simpl. by rewrite H. Qed.

Lemma canUpdate_step (u : val) (s : State) :
  (if truthy u then
     let* f := read_prop u "forceUpdate" in ret (VBool (truthy f))
   else ret u) s
  = Ret (canUpdate_of (heap s) u) s.
Proof.
  unfold canUpdate_of. destruct u as [| |[]|n|str| |]; try done.
  - simpl. by destruct (Z.eqb n 0).
  - simpl. by destruct (String.eqb str "").
Qed.

Lemma strip_and_emit_spec (ev : string) (id : val) (l : loc)
    (m : gmap string val) (s : State) :
  heap s !! l = Some (CObj m) →
  let h1 := <[l := CObj (<["id" := id]> m)]> (heap s) in
  let cu := canUpdate_of h1 (default VUndef (<["id" := id]> m !! "updater")) in
  let msg := delete "updater" (delete "type" (<["canUpdate" := cu]> (<["id" := id]> m))) in
  let sfin := set_heap (<[l := CObj msg]> (heap s)) s in
  strip_and_emit ev id (VRef l) s
  = Ret () (set_emitted
              (emitted s ++ [{| ev_name := ev; ev_data := VRef l;
                                ev_view := view_of sfin |}]) sfin).
Proof.
  intros Hl h1 cu msg sfin. unfold strip_and_emit.
  erewrite bind_Ret; [|by apply write_prop_obj].
  erewrite bind_Ret; [|apply read_prop_obj; simpl; apply lookup_insert_eq].
  erewrite bind_Ret; [|apply canUpdate_step].
  erewrite bind_Ret; [|apply write_prop_obj; simpl; apply lookup_insert_eq].
  erewrite bind_Ret; [|apply delete_prop_obj; simpl; apply lookup_insert_eq].
  erewrite bind_Ret; [|apply delete_prop_obj; simpl; apply lookup_insert_eq].
  unfold emit, modify. simpl. rewrite !insert_insert_eq. reflexivity.
Qed.

Lemma grows_refl (s : State) : grows s s.
Proof. by split; [|split]. Qed.

Lemma grows_trans (s1 s2 s3 : State) : grows s1 s2 → grows s2 s3 → grows s1 s3.
Proof.
  intros (Hh & He & Hi) (Hh' & He' & Hi'). split; [congruence|].
  split; [congruence|]. intros v i Hv. by apply Hi', Hi.
Qed.

Lemma getId_returns (v : val) (s : State) :
  v ≠ VNull →
  ∃ i s', getId v s = Ret i s' ∧ identified s' v i ∧ grows s s'.
Proof.
  intros Hv.
  destruct v as [| | | | | |l]; try done;
    try (eexists _, s; rewrite getId_primitive by done;
         split; [done|]; split; [done|]; apply grows_refl).
  destruct (ids s !! l) as [j|] eqn:Hl.
  - exists j, s. rewrite (getId_known _ _ _ Hl).
    split; [done|]. split; [done|]. apply grows_refl.
  - eexists _, _. rewrite (getId_fresh _ _ Hl). split; [done|].
    split; [simpl; apply lookup_insert_eq|].
    split; [done|]. split; [done|]. intros v i.
    destruct v as [| | | | | |l']; try done. simpl. intros Hl'.
    rewrite lookup_insert_ne; [done|congruence].
Qed.

Lemma mapM_getId (elems : list val) (s : State) :
  VNull ∉ elems →
  ∃ s', mapM getId elems s = Ret (map (id_of s') elems) s' ∧ grows s s'.
Proof.
  revert s. induction elems as [|x rest IH]; intros s Hn.
  - exists s. split; [done|apply grows_refl].
  - apply not_elem_of_cons in Hn as [Hx Hrest].
    destruct (getId_returns x s) as (i & s1 & Hg & Hi & Hgr); [done|].
    destruct (IH s1 Hrest) as (s' & Hm & Hgr').
    exists s'. split; [|by eapply grows_trans].
    simpl. erewrite bind_Ret; [|exact Hg]. erewrite bind_Ret; [|exact Hm].
    unfold ret. do 2 f_equal. symmetry. apply identified_id_of.
    by apply Hgr'.
Qed.

Lemma map_children_skip (l : loc) (m : gmap string val) (s : State) :
  heap s !! l = Some (CObj m) →
  truthy (default VUndef (m !! "children"))
    && has_map (heap s) (default VUndef (m !! "children")) = false →
  map_children (VRef l) s = Ret () s.
Proof.
  intros Hl Hc. unfold map_children.
  erewrite bind_Ret; [|by apply read_prop_obj].
  unfold bind, gets. by rewrite Hc.
Qed.

Lemma map_children_array (l a : loc) (m : gmap string val)
    (elems : list val) (named : gmap string val) (s : State) :
  heap s !! l = Some (CObj m) →
  m !! "children" = Some (VRef a) →
  heap s !! a = Some (CArr elems named) →
  named !! "map" = None →
  VNull ∉ elems →
  ∃ s' r,
    heap s !! r = None
    ∧ map_children (VRef l) s = Ret () s'
    ∧ heap s' = <[l := CObj (<["children" := VRef r]> m)]>
                  (<[r := CArr (map (id_of s') elems) ∅]> (heap s))
    ∧ emitted s' = emitted s
    ∧ ∀ v i, identified s v i → identified s' v i.
Proof.
  intros Hl Hc Ha Hmap Hn. set (r := fresh (dom (heap s))).
  assert (Hr : heap s !! r = None).
  { apply not_elem_of_dom, is_fresh. }
  destruct (mapM_getId elems (set_heap (<[r := CArr [] ∅]> (heap s)) s) Hn)
    as (s5 & Hm & Hh5 & He5 & Hi5).
  assert (Hrl : r ≠ l) by (intros Heq; rewrite Heq in Hr; congruence).
  assert (Hra : r ≠ a) by (intros Heq; rewrite Heq in Hr; congruence).
  exists (set_heap
            (<[l := CObj (<["children" := VRef r]> m)]>
               (<[r := CArr (map (id_of s5) elems) ∅]> (heap s5))) s5), r.
  split; [done|]. split; [|split; [|split]].
  - unfold map_children.
    erewrite bind_Ret; [|by apply read_prop_obj].
    rewrite Hc. simpl. unfold bind at 1, gets. rewrite Ha, Hmap. simpl.
    erewrite bind_Ret.
    2:{ unfold array_map. rewrite Ha, Hmap.
        erewrite bind_Ret; [|reflexivity].
        erewrite bind_Ret; [|exact Hm]. reflexivity. }
    erewrite write_prop_obj; [reflexivity|].
    simpl. rewrite lookup_insert_ne by done.
    rewrite Hh5. simpl. by rewrite lookup_insert_ne.
  - simpl. rewrite Hh5. simpl. by rewrite insert_insert_eq.
  - simpl. by rewrite He5.
  - intros v i Hv. by apply Hi5.
Qed.

Lemma canUpdate_of_ext (h h' : gmap loc cell) (u : val) :
  (∀ p, u = VRef p → h' !! p = h !! p) →
  canUpdate_of h' u = canUpdate_of h u.
Proof.
  intros H. unfold canUpdate_of. destruct u as [| | | | | |p]; try done.
  simpl. by rewrite (H p eq_refl).
Qed.

Lemma message_lookup (m : gmap string val) (id cu : val) (k : string) :
  delete "updater" (delete "type" (<["canUpdate" := cu]> (<["id" := id]> m)))
    !! k
  = if decide (k = "updater") then None
    else if decide (k = "type") then None
    else if decide (k = "canUpdate") then Some cu
    else if decide (k = "id") then Some id
    else m !! k.
Proof.
  repeat case_decide; subst.
  - apply lookup_delete_eq.
  - rewrite lookup_delete_ne by done. apply lookup_delete_eq.
  - rewrite !lookup_delete_ne by done. apply lookup_insert_eq.
  - rewrite !lookup_delete_ne, lookup_insert_ne by done. apply lookup_insert_eq.
  - by rewrite !lookup_delete_ne, !lookup_insert_ne.
Qed.

Lemma record_and_send_sends (ev : string) (s : State) (component : val)
    (d : loc) (snapshot : gmap string val) :
  component ≠ VNull →
  heap s !! d = Some (CObj snapshot) →
  sendable (heap s) snapshot →
  sends ev (record_and_send ev component (VRef d)) s component snapshot.
Proof.
  intros Hc Hd [Hu Hch].
  destruct (getId_returns component s Hc) as (i & s1 & Hg & Hi & Hh1 & He1 & Hi1).
  set (s2 := set_nodes (<[i := VRef d]> (nodes s1)) s1).
  set (send := fresh (dom (heap s2))).
  assert (Hsend : heap s !! send = None).
  { rewrite <- Hh1. apply not_elem_of_dom, is_fresh. }
  set (s3 := set_heap (<[send := CObj snapshot]> (heap s2)) s2).
  assert (Hh3 : heap s3 = <[send := CObj snapshot]> (heap s)).
  { simpl. by rewrite Hh1. }
  assert (Hs3 : heap s3 !! send = Some (CObj snapshot)).
  { rewrite Hh3. apply lookup_insert_eq. }
  assert (Hrun : record_and_send ev component (VRef d) s
            = (map_children (VRef send) ;;;
               strip_and_emit ev i (VRef send)) s3).
  { rewrite record_and_send_unfold.
    erewrite bind_Ret; [|exact Hg].
    erewrite bind_Ret; [|reflexivity].
    erewrite bind_Ret; [reflexivity|].
    unfold assign_new. simpl. rewrite Hh1, Hd. reflexivity. }
  assert (He3 : emitted s3 = emitted s) by done.
  assert (Hi3 : identified s3 component i) by done.
  clearbody s3 send. clear s2.
  (* the state before the message is completed, and the message so far *)
  assert (Hmid : ∃ s7 m7,
            map_children (VRef send) s3 = Ret () s7
            ∧ heap s7 !! send = Some (CObj m7)
            ∧ emitted s7 = emitted s
            ∧ identified s7 component i
            ∧ (∀ p, is_Some (heap s !! p) → heap s7 !! p = heap s !! p)
            ∧ m7 !! "updater" = snapshot !! "updater"
            ∧ children_sent s7 (heap s) snapshot m7
            ∧ ∀ k, k ≠ "children" → m7 !! k = snapshot !! k).
  { assert (Hskip :
      truthy (default VUndef (snapshot !! "children"))
        && has_map (heap s3) (default VUndef (snapshot !! "children")) = false →
      (match snapshot !! "children" with
       | Some (VRef a) =>
           match heap s !! a with
           | Some (CArr _ _) => False
           | _ => True
           end
       | _ => True
       end) →
      ∃ s7 m7,
        map_children (VRef send) s3 = Ret () s7
        ∧ heap s7 !! send = Some (CObj m7)
        ∧ emitted s7 = emitted s
        ∧ identified s7 component i
        ∧ (∀ p, is_Some (heap s !! p) → heap s7 !! p = heap s !! p)
        ∧ m7 !! "updater" = snapshot !! "updater"
        ∧ children_sent s7 (heap s) snapshot m7
        ∧ ∀ k, k ≠ "children" → m7 !! k = snapshot !! k).
    { intros Hfalse Hnot. exists s3, snapshot.
      split; [exact (map_children_skip send snapshot s3 Hs3 Hfalse)|].
      split; [done|].
      split; [done|]. split; [done|]. split.
      { intros p [c Hp]. rewrite Hh3, lookup_insert_ne; [done|congruence]. }
      split; [done|]. split; [|done].
      unfold children_sent. destruct (snapshot !! "children") as [[| | | | | |a]|]; try done.
      destruct (heap s !! a) as [[|]|]; done. }
    revert Hskip.
    destruct (snapshot !! "children") as [[| | | | | |a]|] eqn:Hchildren;
      intros Hskip; try (apply Hskip; [apply andb_false_r|done]).
    destruct (heap s !! a) as [[props|elems named]|] eqn:Ha; [| |done].
    - apply Hskip; [|done]. simpl.
      rewrite Hh3, lookup_insert_ne, Ha by congruence. done.
    - destruct Hch as [Hnull Hmap].
      destruct (map_children_array send a snapshot elems named s3)
          as (s7 & r & Hr & Hmc & Hh7 & He7 & Hi7); try done.
        { rewrite Hh3, lookup_insert_ne by congruence. done. }
        assert (Hrs : r ≠ send) by (intros ->; congruence).
        assert (Hr0 : heap s !! r = None).
        { rewrite Hh3, lookup_insert_ne in Hr by done. done. }
        exists s7, (<["children" := VRef r]> snapshot).
        split; [done|]. split; [rewrite Hh7; apply lookup_insert_eq|].
        split; [by rewrite He7|]. split; [by apply Hi7|]. split.
        { intros p [c Hp]. rewrite Hh7, !lookup_insert_ne, Hh3,
            lookup_insert_ne by congruence. done. }
        split; [by rewrite lookup_insert_ne|]. split.
        * unfold children_sent. rewrite Hchildren, Ha. exists r.
          split; [done|]. split; [apply lookup_insert_eq|].
          rewrite Hh7, lookup_insert_ne, lookup_insert_eq by done. done.
        * intros k Hk. by rewrite lookup_insert_ne. }
  destruct Hmid as (s7 & m7 & Hmc & Hs7 & He7 & Hi7 & Hh7 & Hu7 & Hc7 & Hk7).
  pose proof (strip_and_emit_spec ev i send m7 s7 Hs7) as Hfin.
  cbv zeta in Hfin. unfold sends.
  eexists _, _, send, _. split.
  { rewrite Hrun. erewrite bind_Ret; [|exact Hmc]. exact Hfin. }
  split; [simpl; by rewrite He7|]. split; [done|]. split; [done|].
  split; [done|]. split; [simpl; apply lookup_insert_eq|].
  split; [simpl; apply lookup_insert_eq|].
  rewrite !message_lookup.
  split.
  { repeat (case_decide; try congruence).
    f_equal; symmetry; exact (identified_id_of s7 component i Hi7). }
  split.
  { unfold children_sent in *.
    destruct (snapshot !! "children") as [[| | | | | |a]|];
      rewrite ?message_lookup; repeat (case_decide; try congruence);
      try done.
    destruct (heap s !! a) as [[|elems named]|] eqn:Ha; rewrite ?message_lookup;
      repeat (case_decide; try congruence); try done.
    destruct Hc7 as (r & Hr & Hmr & Hhr). exists r. split; [done|].
    rewrite ?message_lookup. repeat (case_decide; try congruence).
    split; [done|]. simpl.
    rewrite lookup_insert_ne; [done|]. intros <-. congruence. }
  split.
  { repeat (case_decide; try congruence).
    f_equal. rewrite lookup_insert_ne by done. rewrite Hu7.
    apply canUpdate_of_ext. intros p Hp.
    assert (Hsome : is_Some (heap s !! p)).
    { apply Hu. destruct (snapshot !! "updater"); simpl in Hp; [by subst|done]. }
    rewrite lookup_insert_ne; [by apply Hh7|].
    intros <-. destruct Hsome. congruence. }
  split; [by repeat (case_decide; try congruence)|].
  split; [by repeat (case_decide; try congruence)|].
  intros k Hk. rewrite message_lookup.
  repeat (case_decide; [subst; exfalso; apply Hk; set_solver|]).
  apply Hk7. intros ->. apply Hk. set_solver.
Qed.

(** C4, amended.  For a component that is not [null] and a snapshot that is
    sent without fault, [onMounted] and [onUpdated] return having emitted
    [mount], respectively [update], with a new object that has: [id], the
    Identifier of the component; [children], a new array of the Identifiers
    of the children when the snapshot has an array of them, else what the
    snapshot has; [canUpdate], which is [true] or [false] as the updater
    has a [forceUpdate] or not when the snapshot has an updater, and else
    is the value, [undefined] when there is none, that the snapshot has for
    its updater; neither [type] nor [updater]; and every other property of
    the snapshot. *)
Theorem outbound_message (s : State) (component : val) (d : loc)
    (snapshot : gmap string val) :
  component ≠ VNull →
  heap s !! d = Some (CObj snapshot) →
  sendable (heap s) snapshot →
  sends "mount" (onMounted component (VRef d)) s component snapshot
  ∧ sends "update" (onUpdated component (VRef d)) s component snapshot.
Proof. intros Hc Hd Hs. split; by apply record_and_send_sends. Qed.

Lemma outbound_message_witness :
  let s := init host_heap distinct_draws in
  let snapshot : gmap string val :=
    {[ "name" := VStr "List"; "type" := VStr "class";
       "children" := VRef 8%nat; "updater" := VRef 3%nat ]} in
  sends "mount" (onMounted (VRef 0%nat) (VRef 7%nat)) s (VRef 0%nat) snapshot
  ∧ sends "update" (onUpdated (VRef 0%nat) (VRef 7%nat)) s (VRef 0%nat)
      snapshot.
Proof.
  intros s snapshot. apply (outbound_message s (VRef 0%nat) 7%nat snapshot).
  - discriminate.
  - vm_compute. reflexivity.
  - split.
    + intros p Hp. vm_compute in Hp. injection Hp as <-.
      vm_compute. by eexists.
    + vm_compute. split; [|reflexivity]. intros H.
      repeat (apply elem_of_cons in H as [H|H]; [discriminate|]).
      by apply elem_of_nil in H.
Defined.

(** A [null] among the children makes [onMounted] throw, with no message
    sent: [getId(null)] sets a [WeakMap] key that is no object. *)
Example onMounted_null_child_throws :
  let s :=
    init {[ 0%nat := CObj ∅;
            1%nat := CObj {[ "children" := VRef 2%nat ]};
            2%nat := CArr [VNull] ∅ ]} distinct_draws in
  ∃ s', onMounted (VRef 0%nat) (VRef 1%nat) s = Throw s' ∧ emitted s' = [].
Proof. eexists. split; vm_compute; reflexivity. Qed.

(** C4 as stated fails on a snapshot without updater: [canUpdate] is then
    [undefined], not the boolean [false]. *)
Lemma canUpdate_not_boolean :
  ∃ send msg,
    map ev_data (emitted mounted_plain) = [VRef send]
    ∧ heap mounted_plain !! send = Some (CObj msg)
    ∧ msg !! "canUpdate" = Some VUndef
    ∧ ∀ b, msg !! "canUpdate" ≠ Some (VBool b).
Proof.
  eexists _, _. split; [vm_compute; reflexivity|].
  split; [vm_compute; reflexivity|].
  assert (H : ∀ o : option val, o = Some VUndef →
            o = Some VUndef ∧ ∀ b, o ≠ Some (VBool b)).
  { intros o ->. split; [done|]. intros b. discriminate. }
  apply H. vm_compute. reflexivity.
Qed.

(** * Further properties of the code *)

(** ** The Path Accessor *)

Lemma walk_null (h : gmap loc cell) (path : list string) :
  walk h VNull path = VNull.
Proof. induction path as [|k rest IH]; [done|]. exact IH. Qed.

Lemma walk_falsy (h : gmap loc cell) (v : val) (path : list string) :
  truthy v = false → path ≠ [] → walk h v path = VNull.
Proof.
  intros Hv Hp. destruct path as [|k rest]; [done|].
  unfold walk. simpl. unfold reduce_step at 2. rewrite Hv. apply walk_null.
Qed.

Lemma walk_app (h : gmap loc cell) (v : val) (p q : list string) :
  walk h v (p ++ q) = walk h (walk h v p) q.
Proof. apply foldl_app. Qed.

(** X1.  [getIn] returns [null] as soon as the walk meets a falsy value
    (an absent key, [null], [0], the empty string, [false]) with a key still
    to read; it changes nothing. *)
Theorem getIn_past_falsy (s : State) (root v : val) (p q : list string) :
  walk (heap s) root p = v →
  truthy v = false →
  q ≠ [] →
  getIn root (p ++ q) s = Ret VNull s.
Proof.
  intros Hw Hv Hq. unfold getIn, gets. f_equal.
  rewrite walk_app, Hw. by apply walk_falsy.
Qed.

Lemma getIn_past_falsy_witness :
  let s := init host_heap distinct_draws in
  getIn (VRef 0%nat) (["a"] ++ ["b"; "c"]) s = Ret VNull s.
Proof.
  intros s. apply (getIn_past_falsy s (VRef 0%nat) VUndef ["a"] ["b"; "c"]).
  - vm_compute. reflexivity.
  - reflexivity.
  - discriminate.
Defined.

(** X2.  [setIn] returns [false] and writes nothing when the walk meets a
    falsy value at least one key before the container of the last key. *)
Theorem setIn_past_falsy
    (s : State) (root v : val) (p q : list string) (name : string)
    (value : val) :
  walk (heap s) root p = v →
  truthy v = false →
  q ≠ [] →
  setIn root (p ++ q ++ [name]) value s = Ret false s.
Proof.
  intros Hw Hv Hq. rewrite app_assoc, setIn_unfold, walk_app, Hw.
  by rewrite (walk_falsy _ _ _ Hv Hq).
Qed.

Lemma setIn_past_falsy_witness :
  let s := init host_heap distinct_draws in
  setIn (VRef 0%nat) (["a"] ++ ["b"] ++ ["c"]) (VNum 1) s = Ret false s.
Proof.
  intros s.
  apply (setIn_past_falsy s (VRef 0%nat) VUndef ["a"] ["b"] "c" (VNum 1)).
  - vm_compute. reflexivity.
  - reflexivity.
  - discriminate.
Defined.

(** X3.  When the walk along all keys but the last ends on a plain object
    or on an array, and the last key is neither [__proto__] nor the [length]
    of an array, [setIn] returns [true] and changes this one container
    only, and in it only what the last key reads and, where the write
    lengthens an array, its [length].  [getIn] along any path that reads
    none of these returns what it returned before. *)
Theorem setIn_getIn_elsewhere
    (s : State) (root : val) (p : list string) (name : string)
    (value : val) (l : loc) (c : cell) :
  walk (heap s) root p = VRef l →
  heap s !! l = Some c →
  own_write c name →
  ∃ c',
    setIn root (p ++ [name]) value s
    = Ret true (set_heap (<[l := c']> (heap s)) s)
    ∧ (∀ k, k ∉ touched c name → cell_get c' k = cell_get c k)
    ∧ ∀ root' q v,
        (∀ k, k ∈ touched c name → (VRef l, k) ∉ reads (heap s) root' q) →
        getIn root' q s = Ret v s →
        getIn root' q (set_heap (<[l := c']> (heap s)) s)
        = Ret v (set_heap (<[l := c']> (heap s)) s).
Proof.
  intros Hw Hl Hown.
  destruct (own_write_cell_set c name value Hown) as [c' Hset].
  exists c'. split; [|split].
  - rewrite setIn_unfold, Hw. simpl. unfold bind, write_prop.
    by rewrite Hl, Hset.
  - intros k Hk. by eapply cell_get_set_ne.
  - intros root' q v Hr. unfold getIn, gets. simpl. intros [= <-].
    f_equal. by eapply walk_write.
Qed.

Lemma setIn_getIn_elsewhere_witness :
  let s := init host_heap distinct_draws in
  let c := CArr [VRef 4%nat; VStr "text"; VRef 0%nat] ∅ in
  ∃ c',
    setIn (VRef 7%nat) ["children"; "4"] (VStr "more") s
    = Ret true (set_heap (<[8%nat := c']> (heap s)) s)
    ∧ (∀ k, k ∉ touched c "4" → cell_get c' k = cell_get c k)
    ∧ ∀ root' q v,
        (∀ k, k ∈ touched c "4" → (VRef 8%nat, k) ∉ reads (heap s) root' q) →
        getIn root' q s = Ret v s →
        getIn root' q (set_heap (<[8%nat := c']> (heap s)) s)
        = Ret v (set_heap (<[8%nat := c']> (heap s)) s).
Proof.
  intros s c.
  apply (setIn_getIn_elsewhere s (VRef 7%nat) ["children"] "4" (VStr "more")
           8%nat c).
  - vm_compute. reflexivity.
  - vm_compute. reflexivity.
  - split; discriminate.
Defined.

(** ** What the registry keeps *)

(** X4.  No call removes an entry of [comps]: an Identifier that [comps]
    knows stays known to it for the rest of the run, also after the unmount
    of its handle. *)
Theorem comps_never_forgets (s : State) (os : list op) (i : val) :
  is_Some (comps s !! i) → is_Some (comps (run os s) !! i).
Proof.
  apply (inv_run (fun s => is_Some (comps s !! i)) (fun _ => True));
    try done.
  - intros element s0 Hs0. destruct element as [| | | | | |l];
      try (by rewrite getId_primitive); [by rewrite getId_null|].
    destruct (ids s0 !! l) as [j|] eqn:Hl.
    + by rewrite (getId_known _ _ _ Hl).
    + rewrite (getId_fresh _ _ Hl). split; [|done]. simpl.
      apply lookup_insert_is_Some'. by right.
  - intros c _. destruct c; first [by apply holds_modify|by apply holds_ret].
  - apply Forall_forall. intros o _. by destruct o.
Qed.

Lemma comps_never_forgets_witness :
  is_Some (comps (run [OnUnmounted (VRef 0%nat); HostWrites ∅] mounted)
             !! VStr "3a9e01c2b7").
Proof.
  apply (comps_never_forgets mounted [OnUnmounted (VRef 0%nat); HostWrites ∅]
           (VStr "3a9e01c2b7")).
  vm_compute. by eexists.
Defined.

(** Computations that write the heap and the traces only *)
Section frame.
Context (I : State → Prop).
Hypothesis I_heap : ∀ h s, I s → I (set_heap h s).
Hypothesis I_globals : ∀ g s, I s → I (set_globals g s).
Hypothesis I_emitted : ∀ e s, I s → I (set_emitted e s).
Hypothesis I_console : ∀ c s, I s → I (set_console c s).
Hypothesis I_called : ∀ c s, I s → I (set_called c s).

Local Ltac frame_step :=
  lazymatch goal with
  | |- holds _ (getNodeForID _) _ => apply inv_getNodeForID
  | |- holds _ (read_prop _ _) _ => apply inv_read_prop
  | |- holds _ (getIn _ _) _ => apply inv_getIn
  | |- holds _ (highlight _) _ => apply inv_highlight; solve [auto]
  | |- holds _ (call _) _ => apply inv_call; solve [auto]
  | |- holds _ (console_warn _) _ => apply inv_console_warn; solve [auto]
  | |- holds _ (emit _ _) _ => apply inv_emit; solve [auto]
  | |- holds _ (modify _) _ => apply holds_modify; solve [auto]
  | |- _ => holds_step
  end.

Local Ltac frame := repeat frame_step.

Lemma frame_scrollToNode (id : val) : holds I (scrollToNode id) any.
Proof. unfold scrollToNode. frame. Qed.

Lemma frame_makeGlobal (id : val) (path : string + list string) :
  holds I (_makeGlobal id path) any.
Proof. unfold _makeGlobal, nodes_get. frame. Qed.

Lemma frame_selected (id : val) : holds I (selected id) any.
Proof. unfold selected, nodes_get. frame. Qed.

Lemma frame_lookup_only (o : op) : lookup_only o → holds I (exec o) any.
Proof.
  destruct o; try done; intros _; simpl.
  - apply frame_makeGlobal.
  - by apply inv_highlight.
  - by apply inv_highlightMany.
  - apply frame_scrollToNode.
  - apply frame_selected.
Qed.
End frame.

(** X5.  [highlight], [highlightMany], [scrollToNode], [_makeGlobal] and
    the [selected] listener leave the Identity Registry, the Node Store and
    the Root Set as they are, whether they return or throw. *)
Theorem lookup_only_keeps_registry (o : op) (s s' : State) :
  lookup_only o → final (exec o s) = Some s' → same_registry s s'.
Proof.
  intros Ho Hf.
  generalize (frame_lookup_only (same_registry s)
    (fun _ _ H => H) (fun _ _ H => H) (fun _ _ H => H) (fun _ _ H => H)
    (fun _ _ H => H) o Ho s).
  destruct (exec o s); simpl in Hf; simplify_eq.
  - intros H. by apply H.
  - intros H. by apply H.
Qed.

Lemma lookup_only_keeps_registry_witness :
  let s' :=
    set_console
      (console mounted ++ ["unable to get the node for scrolling"]) mounted in
  same_registry mounted s'.
Proof.
  intros s'.
  apply (lookup_only_keeps_registry (ScrollToNode (VStr "3a9e01c2b7"))
           mounted s').
  - exact Logic.I.
  - vm_compute. reflexivity.
Defined.

(** ** Events and exceptions *)

Lemma truthy_not_nullish (v : val) : truthy v = true → nullish v = false.
Proof. by destruct v. Qed.

Lemma selected_never_throws (s : State) (id : val) :
  ∃ s', selected id s = Ret () s'.
Proof.
  unfold selected, bind, emit, modify, nodes_get, gets. simpl.
  destruct (truthy (default VUndef (nodes s !! id))) eqn:Hd; simpl;
    [|by eexists].
  unfold read_prop at 1. rewrite (truthy_not_nullish _ Hd). unfold gets.
  simpl.
  destruct (truthy (prop_get (heap s) (default VUndef (nodes s !! id))
                      "updater")) eqn:Hu; simpl; [|by eexists].
  unfold read_prop. rewrite (truthy_not_nullish _ Hu). by eexists.
Qed.

(** X6.  The [selected] listener never throws, whatever the Identifier: it
    emits [selected], and sets [$r] to the public instance of the updater
    only when the Node Store has a snapshot with an updater; the heap and
    the registries are untouched. *)
Theorem selected_returns (s : State) (id : val) :
  selected id s
  = Ret ()
      (set_globals (selected_globals s id)
         (set_emitted
            (emitted s ++
               [{| ev_name := "selected"; ev_data := id;
                   ev_view := view_of s |}]) s)).
Proof.
  unfold selected, selected_globals, bind, emit, modify, nodes_get, gets.
  simpl. destruct (truthy (default VUndef (nodes s !! id))) eqn:Hd; simpl.
  - unfold read_prop at 1. rewrite (truthy_not_nullish _ Hd). unfold gets.
    simpl.
    destruct (truthy (prop_get (heap s) (default VUndef (nodes s !! id))
                        "updater")) eqn:Hu; simpl.
    + unfold read_prop. rewrite (truthy_not_nullish _ Hu). reflexivity.
    + by destruct s.
  - by destruct s.
Qed.

Lemma silent_getId (e0 : list Emission) (element : val) :
  holds (fun s => emitted s = e0) (getId element) any.
Proof.
  intros s Hs. destruct element as [| | | | | |l];
    try (by rewrite getId_primitive); [by rewrite getId_null|].
  destruct (ids s !! l) as [j|] eqn:Hl.
  - by rewrite (getId_known _ _ _ Hl).
  - by rewrite (getId_fresh _ _ Hl).
Qed.

Lemma silent_heap (e0 : list Emission) (h : gmap loc cell) (s : State) :
  emitted s = e0 → emitted (set_heap h s) = e0.
Proof. done. Qed.

Lemma silent_called (e0 : list Emission) (c : list val) (s : State) :
  emitted s = e0 → emitted (set_called c s) = e0.
Proof. done. Qed.

Lemma silent_console (e0 : list Emission) (c : list string) (s : State) :
  emitted s = e0 → emitted (set_console c s) = e0.
Proof. done. Qed.

Ltac silent_step :=
  lazymatch goal with
  | |- holds _ (getId _) _ => apply silent_getId
  | |- holds _ (getNodeForID _) _ => apply inv_getNodeForID
  | |- holds _ (read_prop _ _) _ => apply inv_read_prop
  | |- holds _ (getIn _ _) _ => apply inv_getIn
  | |- holds _ (setIn _ _ _) _ => apply inv_setIn, silent_heap
  | |- holds _ (alloc _) _ => apply inv_alloc, silent_heap
  | |- holds _ (assign_new _) _ => apply inv_assign_new, silent_heap
  | |- holds _ (write_prop _ _ _) _ => apply inv_write_prop, silent_heap
  | |- holds _ (delete_prop _ _) _ => apply inv_delete_prop, silent_heap
  | |- holds _ (array_push _ _) _ => apply inv_array_push, silent_heap
  | |- holds _ (selection _ _) _ => apply inv_selection, silent_heap
  | |- holds _ (array_map getId _) _ =>
      apply inv_array_map; [apply silent_heap|apply silent_getId]
  | |- holds _ (call _) _ => apply inv_call, silent_called
  | |- holds _ (console_warn _) _ => apply inv_console_warn, silent_console
  | |- holds _ (mapM _ _) _ => apply holds_mapM; intros ?
  | |- holds _ (modify _) _ => apply holds_modify; by intros
  | |- _ => holds_step
  end.

Ltac silent_tac := intros ?; repeat silent_step.

Lemma throws_silently_silent {A} (m : M A) : silent m → throws_silently m.
Proof.
  intros Hm s. generalize (Hm (emitted s) s eq_refl).
  destruct (m s); [done| |done]. by intros.
Qed.

Lemma throws_silently_bind {A B} (m : M A) (k : A → M B) :
  silent m → (∀ a, throws_silently (k a)) → throws_silently (bind m k).
Proof.
  intros Hm Hk s. unfold bind. generalize (Hm (emitted s) s eq_refl).
  destruct (m s) as [a s1|s1|]; [|by intros|done].
  intros [Hs1 _]. generalize (Hk a s1).
  destruct (k a s1); try done. intros. congruence.
Qed.

Lemma throws_silently_emit (ev : string) (data : val) :
  throws_silently (emit ev data).
Proof. by intros s. Qed.

Ltac throws_step :=
  lazymatch goal with
  | |- throws_silently (bind _ _) =>
      apply throws_silently_bind; [silent_tac|intros ?]
  | |- throws_silently (emit _ _) => apply throws_silently_emit
  | |- throws_silently (if ?b then _ else _) => destruct b
  | |- throws_silently (match ?x with _ => _ end) => destruct x
  | |- throws_silently _ => apply throws_silently_silent; silent_tac
  end.

Lemma throws_silently_record_and_send (ev : string) (component data : val) :
  throws_silently (record_and_send ev component data).
Proof. unfold record_and_send, nodes_set. repeat throws_step. Qed.

Lemma throws_silently_highlight (id : val) : throws_silently (highlight id).
Proof. unfold highlight, nodes_get. repeat throws_step. Qed.

Lemma throws_silently_set_field (field warning : string) (id : val)
    (path : list string) (value : val) :
  throws_silently (set_field field warning id path value).
Proof.
  unfold set_field, nodes_get, comps_get. do 5 throws_step.
  throws_step; [|repeat throws_step].
  apply throws_silently_bind; [silent_tac|intros _].
  apply throws_silently_bind; [silent_tac|intros component].
  apply throws_silently_record_and_send.
Qed.

Lemma throws_silently_onUnmounted (component : val) :
  throws_silently (onUnmounted component).
Proof.
  intros s. unfold onUnmounted. unfold bind at 1.
  generalize (silent_getId (emitted s) component s eq_refl).
  destruct (getId component s) as [i s1|s1|]; [|done|done].
  intros _. by destruct component.
Qed.

(** X7.  A call that throws has emitted nothing: in every method the event
    is emitted after everything that can throw. *)
Theorem no_event_on_throw (o : op) (s s' : State) :
  exec o s = Throw s' → emitted s' = emitted s.
Proof.
  assert (H : throws_silently (exec o)); [|by intros Ho; generalize (H s); rewrite Ho].
  destruct o; simpl.
  - unfold setReactInternals. repeat throws_step.
  - repeat throws_step.
  - unfold addRoot, roots_add. repeat throws_step.
  - apply throws_silently_record_and_send.
  - apply throws_silently_record_and_send.
  - apply throws_silently_onUnmounted.
  - apply throws_silently_set_field.
  - apply throws_silently_set_field.
  - apply throws_silently_set_field.
  - unfold _makeGlobal, nodes_get. repeat throws_step.
  - apply throws_silently_highlight.
  - unfold highlightMany. repeat throws_step.
  - unfold scrollToNode.
    apply throws_silently_bind; [silent_tac|intros node].
    destruct (negb (truthy node)); [repeat throws_step|].
    apply throws_silently_bind; [silent_tac|intros f].
    apply throws_silently_bind; [silent_tac|intros _].
    apply throws_silently_highlight.
  - unfold selectFromDOMNode, getIDForNode. repeat throws_step.
  - unfold selectFromReactInstance. repeat throws_step.
  - intros s0.
    match goal with
    | |- context [selected ?i s0] =>
        by destruct (selected_never_throws s0 i) as [? ->]
    end.
  - repeat throws_step.
Qed.

Lemma no_event_on_throw_witness :
  let s := init null_child_heap distinct_draws in
  let o := OnMounted (VRef 0%nat) (VRef 1%nat) in
  emitted (run [o] s) = emitted s.
Proof.
  intros s o. apply (no_event_on_throw o s (run [o] s)).
  vm_compute. reflexivity.
Defined.

(** ** Highlighting and scrolling *)

Lemma getNodeForID_node_of (id : val) (s : State) :
  getNodeForID id s = Ret (node_of s id) s.
Proof.
  unfold getNodeForID, node_of, bind, comps_get, gets. simpl.
  destruct (negb (truthy (default VUndef (comps s !! id)))); [done|].
  by destruct (reactInternals s).
Qed.

Lemma set_heap_same (s : State) (l : loc) (c : cell) :
  heap s !! l = Some c → set_heap (<[l := c]> (heap s)) s = s.
Proof. intros H. rewrite insert_id by done. by destruct s. Qed.

(** The loop of [highlightMany], from an array that holds [acc] *)
Lemma highlightMany_loop (found : loc) (ids : list val) (acc : list val)
    (s : State) :
  heap s !! found = Some (CArr acc ∅) →
  ∃ us,
    mapM (fun id =>
            let* node := getNodeForID id in
            if truthy node then array_push (VRef found) node else ret ()) ids s
    = Ret us
        (set_heap
           (<[found :=
                CArr (acc ++ List.filter truthy (map (node_of s) ids)) ∅]>
              (heap s)) s).
Proof.
  revert acc s. induction ids as [|id ids IH]; intros acc s Hf.
  - exists []. simpl. rewrite app_nil_r. by rewrite set_heap_same.
  - simpl. destruct (truthy (node_of s id)) eqn:Hn.
    + set (s1 := set_heap (<[found := CArr (acc ++ [node_of s id]) ∅]>
                             (heap s)) s).
      destruct (IH (acc ++ [node_of s id])%list s1) as (us & Hus).
      { simpl. apply lookup_insert_eq. }
      eexists. erewrite bind_Ret.
      2:{ erewrite bind_Ret; [|apply getNodeForID_node_of]. rewrite Hn.
          unfold array_push. rewrite Hf, lookup_empty. reflexivity. }
      erewrite bind_Ret; [|exact Hus]. unfold ret. f_equal.
      simpl. rewrite insert_insert_eq, <- app_assoc. reflexivity.
    + destruct (IH acc s Hf) as (us & Hus).
      eexists. erewrite bind_Ret.
      2:{ erewrite bind_Ret; [|apply getNodeForID_node_of]. rewrite Hn.
          reflexivity. }
      erewrite bind_Ret; [|exact Hus]. reflexivity.
Qed.

(** X8.  [highlightMany] never throws.  It makes one new array, of the
    native nodes of the Identifiers that resolve, in the order given, and
    emits [highlightMany] with it, once, unless no Identifier resolves: then
    it emits nothing.  The registries are untouched. *)
Theorem highlightMany_resolved (s : State) (ids : list val) :
  let found := fresh (dom (heap s)) in
  let nodes := List.filter truthy (map (node_of s) ids) in
  ∃ s',
    highlightMany ids s = Ret () s'
    ∧ same_registry s s'
    ∧ heap s' = <[found := CArr nodes ∅]> (heap s)
    ∧ emitted s'
      = (emitted s ++
           match nodes with
           | [] => []
           | _ =>
               [{| ev_name := "highlightMany"; ev_data := VRef found;
                   ev_view := view_of s' |}]
           end)%list.
Proof.
  intros found nodes. unfold highlightMany.
  erewrite bind_Ret; [|reflexivity]. fold found.
  set (s1 := set_heap (<[found := CArr [] ∅]> (heap s)) s).
  destruct (highlightMany_loop found ids [] s1) as (us & Hus).
  { simpl. apply lookup_insert_eq. }
  erewrite bind_Ret; [|exact Hus]. simpl.
  change (List.filter truthy (map (node_of s1) ids)) with nodes.
  rewrite insert_insert_eq.
  unfold bind, read_prop, gets. simpl. rewrite lookup_insert_eq. simpl.
  destruct nodes as [|n nodes']; simpl.
  - eexists. split; [reflexivity|]. simpl. rewrite app_nil_r.
    by repeat split.
  - eexists. split; [reflexivity|]. by repeat split.
Qed.

(** X9.  On an Identifier whose native node resolves, [scrollToNode] calls
    one scroll method of the node, [scrollIntoViewIfNeeded] if the node has
    it and else [scrollIntoView], then goes on as [highlight] does; if what
    it finds is no function it throws, having done nothing. *)
Theorem scrollToNode_resolved (s : State) (id : val) :
  truthy (node_of s id) = true →
  scrollToNode id s
  = match scroll_method (heap s) (node_of s id) with
    | VFun f =>
        highlight id (set_called (called s ++ [VFun f]) s)
    | _ => Throw s
    end.
Proof.
  intros Hn. unfold scrollToNode.
  erewrite bind_Ret; [|apply getNodeForID_node_of]. rewrite Hn. simpl.
  unfold scroll_method, bind at 1, bind at 1, read_prop.
  rewrite (truthy_not_nullish _ Hn). unfold gets.
  destruct (truthy (prop_get (heap s) (node_of s id) "scrollIntoViewIfNeeded"))
    eqn:Hf.
  - destruct (prop_get (heap s) (node_of s id) "scrollIntoViewIfNeeded");
      try done.
  - unfold bind at 1.
    destruct (prop_get (heap s) (node_of s id) "scrollIntoView"); try done.
Qed.

Lemma scrollToNode_resolved_witness :
  scrollToNode (VStr "3a9e01c2b7") adapted = Throw adapted.
Proof.
  apply (scrollToNode_resolved adapted (VStr "3a9e01c2b7")).
  vm_compute. reflexivity.
Defined.

(** X10.  Before an adapter is injected, the operations that need it do
    nothing: [getNodeForID] and [getIDForNode] return [null], [highlight]
    and [selectFromDOMNode] leave the Backend as it is, [scrollToNode] only
    logs its warning. *)
Theorem no_adapter_no_effect (s : State) (id node quiet : val) :
  reactInternals s = None →
  getNodeForID id s = Ret VNull s
  ∧ getIDForNode node s = Ret VNull s
  ∧ highlight id s = Ret () s
  ∧ selectFromDOMNode node quiet s = Ret () s
  ∧ scrollToNode id s
    = Ret () (set_console
                (console s ++ ["unable to get the node for scrolling"]) s).
Proof.
  intros Hr.
  assert (Hn : node_of s id = VNull).
  { unfold node_of. rewrite Hr. by destruct (negb _). }
  assert (Hg : getIDForNode node s = Ret VNull s).
  { unfold getIDForNode, bind, gets. by rewrite Hr. }
  split; [by rewrite getNodeForID_node_of, Hn|]. split; [done|].
  split; [|split].
  - unfold highlight. unfold bind at 1, nodes_get, gets.
    erewrite bind_Ret; [|apply getNodeForID_node_of]. by rewrite Hn.
  - unfold selectFromDOMNode. erewrite bind_Ret; [|exact Hg]. done.
  - unfold scrollToNode. erewrite bind_Ret; [|apply getNodeForID_node_of].
    by rewrite Hn.
Qed.

Lemma no_adapter_no_effect_witness :
  let s := mounted in
  getNodeForID (VStr "3a9e01c2b7") s = Ret VNull s
  ∧ getIDForNode (VRef 2%nat) s = Ret VNull s
  ∧ highlight (VStr "3a9e01c2b7") s = Ret () s
  ∧ selectFromDOMNode (VRef 2%nat) VUndef s = Ret () s
  ∧ scrollToNode (VStr "3a9e01c2b7") s
    = Ret () (set_console
                (console s ++ ["unable to get the node for scrolling"]) s).
Proof.
  intros s.
  apply (no_adapter_no_effect s (VStr "3a9e01c2b7") (VRef 2%nat) VUndef).
  vm_compute. reflexivity.
Defined.

(** X11.  [_makeGlobal] on an Identifier that the Node Store does not know:
    with a list of keys it does not throw, [$tmp] is set to [null] (to
    [undefined] for the empty list); with ['instance'] it throws, the
    updater of [undefined] being read. *)
Theorem makeGlobal_unknown_id (s : State) (id : val) (keys : list string) :
  nodes s !! id = None →
  _makeGlobal id (inr keys) s
  = Ret ()
      (set_console (console s ++ ["$tmp ="])
         (set_globals
            (<["$tmp" := match keys with [] => VUndef | _ => VNull end]>
               (globals s)) s))
  ∧ _makeGlobal id (inl "instance") s = Throw s.
Proof.
  intros Hid. split.
  - unfold _makeGlobal, bind, nodes_get, getIn, gets. rewrite Hid. simpl.
    destruct keys as [|k rest]; [done|].
    by rewrite (walk_falsy (heap s) VUndef (k :: rest)).
  - unfold _makeGlobal, bind, nodes_get, gets. by rewrite Hid.
Qed.

Lemma makeGlobal_unknown_id_witness :
  let s := init host_heap distinct_draws in
  _makeGlobal (VStr "stale") (inr ["props"; "x"]) s
  = Ret ()
      (set_console (console s ++ ["$tmp ="])
         (set_globals (<["$tmp" := VNull]> (globals s)) s))
  ∧ _makeGlobal (VStr "stale") (inl "instance") s = Throw s.
Proof.
  intros s. apply (makeGlobal_unknown_id s (VStr "stale") ["props"; "x"]).
  reflexivity.
Defined.

(** ** Roots, unmounts and mutations *)

Lemma getId_again (s : State) (v i : val) :
  identified s v i → getId v s = Ret i s.
Proof.
  destruct v as [| | | | | |l]; simpl; try done;
    try (intros ->; by apply getId_primitive).
  apply getId_known.
Qed.

(** X12.  [addRoot] of a component that is not [null] puts its Identifier
    in the Root Set and emits [root] with it.  Called again for the same
    component it draws no new Identifier and leaves the Root Set and the
    registry as they are, but emits [root] a second time. *)
Theorem addRoot_twice (s : State) (element : val) :
  element ≠ VNull →
  ∃ id s1 s2,
    addRoot element s = Ret () s1
    ∧ addRoot element s1 = Ret () s2
    ∧ identified s1 element id
    ∧ roots s1 = {[id]} ∪ roots s
    ∧ roots s2 = roots s1 ∧ ids s2 = ids s1 ∧ comps s2 = comps s1
    ∧ draws s2 = draws s1
    ∧ emitted s2
      = (emitted s ++
           [{| ev_name := "root"; ev_data := id; ev_view := view_of s1 |};
            {| ev_name := "root"; ev_data := id; ev_view := view_of s2 |}])%list.
Proof.
  intros Hne.
  destruct (getId_returns element s Hne) as (i & s0 & Hg & Hi & Hh & He & _).
  eexists i, _, _. split.
  { unfold addRoot. erewrite bind_Ret; [|exact Hg]. reflexivity. }
  split.
  { unfold addRoot. erewrite bind_Ret; [|apply getId_again; exact Hi].
    reflexivity. }
  simpl. split; [done|].
  assert (Hr : getId element s = Ret i s0 → roots s0 = roots s).
  { destruct element as [| | | | | |l];
      try (rewrite getId_primitive by done; by intros [= _ <-]); try done.
    destruct (ids s !! l) as [j|] eqn:Hl.
    - rewrite (getId_known _ _ _ Hl). by intros [= _ <-].
    - rewrite (getId_fresh _ _ Hl). by intros [= _ <-]. }
  rewrite (Hr Hg). split; [done|].
  split; [by rewrite (assoc_L (∪)), union_idemp_L|].
  repeat split; try done. by rewrite He, <- app_assoc.
Qed.

Lemma addRoot_twice_witness :
  let s := init host_heap distinct_draws in
  ∃ id s1 s2,
    addRoot (VRef 0%nat) s = Ret () s1
    ∧ addRoot (VRef 0%nat) s1 = Ret () s2
    ∧ identified s1 (VRef 0%nat) id
    ∧ roots s1 = {[id]} ∪ roots s
    ∧ roots s2 = roots s1 ∧ ids s2 = ids s1 ∧ comps s2 = comps s1
    ∧ draws s2 = draws s1
    ∧ emitted s2
      = (emitted s ++
           [{| ev_name := "root"; ev_data := id; ev_view := view_of s1 |};
            {| ev_name := "root"; ev_data := id; ev_view := view_of s2 |}])%list.
Proof. intros s. apply (addRoot_twice s (VRef 0%nat)). discriminate. Defined.

(** X13.  [onUnmounted] of an object that was never registered registers
    it first: an Identifier is drawn for it, [unmount] is emitted with this
    Identifier, and [comps] keeps the Identifier although [ids] is as it was
    before. *)
Theorem onUnmounted_untracked (s : State) (h : loc) :
  ids s !! h = None →
  ∃ s' e,
    onUnmounted (VRef h) s = Ret () s'
    ∧ emitted s' = (emitted s ++ [e])%list
    ∧ ev_name e = "unmount"
    ∧ ev_data e = VStr (entropy s (draws s))
    ∧ comps s' !! VStr (entropy s (draws s)) = Some (VRef h)
    ∧ ids s' = ids s
    ∧ draws s' = S (draws s).
Proof.
  intros Hh. eexists _, _. split.
  { unfold onUnmounted. erewrite bind_Ret; [|by apply getId_fresh].
    reflexivity. }
  simpl. split; [done|]. split; [done|]. split; [done|].
  split; [apply lookup_insert_eq|].
  split; [by apply delete_insert_id|done].
Qed.

Lemma onUnmounted_untracked_witness :
  let s := init host_heap distinct_draws in
  ∃ s' e,
    onUnmounted (VRef 4%nat) s = Ret () s'
    ∧ emitted s' = (emitted s ++ [e])%list
    ∧ ev_name e = "unmount"
    ∧ ev_data e = VStr (entropy s (draws s))
    ∧ comps s' !! VStr (entropy s (draws s)) = Some (VRef 4%nat)
    ∧ ids s' = ids s
    ∧ draws s' = S (draws s).
Proof. intros s. apply (onUnmounted_untracked s 4%nat). reflexivity. Defined.




(** ** Selection *)

Lemma selection_returns (id quiet : val) (s : State) :
  let d := fresh (dom (heap s)) in
  selection id quiet s
  = Ret (VRef d) (set_heap (<[d := selection_message id quiet]> (heap s)) s).
Proof.
  intros d. unfold selection.
  erewrite bind_Ret; [|reflexivity]. fold d.
  erewrite bind_Ret; [|apply write_prop_obj; simpl; apply lookup_insert_eq].
  erewrite bind_Ret; [|apply write_prop_obj; simpl; apply lookup_insert_eq].
  unfold ret, selection_message. simpl. by rewrite !insert_insert_eq.
Qed.

(** X15.  [selectFromReactInstance] of an instance that is not [null]
    always emits [setSelection], with a new object [{id, quiet}] whose [id]
    is the Identifier of the instance; when this Identifier is falsy it logs
    first, and emits all the same. *)
Theorem selectFromReactInstance_emits (s : State) (instance quiet : val) :
  instance ≠ VNull →
  ∃ id s' e d,
    selectFromReactInstance instance quiet s = Ret () s'
    ∧ identified s' instance id
    ∧ console s'
      = (console s ++ if truthy id then [] else ["no instance id"])%list
    ∧ emitted s' = (emitted s ++ [e])%list
    ∧ ev_name e = "setSelection" ∧ ev_data e = VRef d
    ∧ heap s !! d = None
    ∧ heap s' !! d = Some (selection_message id quiet).
Proof.
  intros Hne.
  destruct (getId_returns instance s Hne) as (i & s1 & Hg & Hi & Hh & He & _).
  assert (Hc : console s1 = console s).
  { destruct instance as [| | | | | |l];
      try (rewrite getId_primitive in Hg by done; by injection Hg as _ <-);
      try done.
    destruct (ids s !! l) as [j|] eqn:Hl.
    - rewrite (getId_known _ _ _ Hl) in Hg. by injection Hg as _ <-.
    - rewrite (getId_fresh _ _ Hl) in Hg. by injection Hg as _ <-. }
  assert (Hfresh : ∀ s2 : State, heap s2 = heap s →
            heap s !! fresh (dom (heap s2)) = None).
  { intros s2 <-. apply not_elem_of_dom, is_fresh. }
  unfold selectFromReactInstance. erewrite bind_Ret; [|exact Hg].
  destruct (truthy i) eqn:Hti; simpl.
  - erewrite bind_Ret; [|reflexivity].
    erewrite bind_Ret; [|apply selection_returns].
    eexists i, _, _, _. split; [reflexivity|]. simpl.
    split; [done|]. split; [by rewrite Hti, Hc, app_nil_r|].
    split; [by rewrite He|]. split; [done|]. split; [done|].
    split; [by apply Hfresh|apply lookup_insert_eq].
  - erewrite bind_Ret; [|reflexivity].
    erewrite bind_Ret; [|apply selection_returns].
    eexists i, _, _, _. split; [reflexivity|]. simpl.
    split; [done|]. split; [by rewrite Hti, Hc|].
    split; [by rewrite He|]. split; [done|]. split; [done|].
    split; [by apply Hfresh|apply lookup_insert_eq].
Qed.

Lemma selectFromReactInstance_emits_witness :
  let s := init host_heap distinct_draws in
  ∃ id s' e d,
    selectFromReactInstance (VStr "") VUndef s = Ret () s'
    ∧ identified s' (VStr "") id
    ∧ console s'
      = (console s ++ if truthy id then [] else ["no instance id"])%list
    ∧ emitted s' = (emitted s ++ [e])%list
    ∧ ev_name e = "setSelection" ∧ ev_data e = VRef d
    ∧ heap s !! d = None
    ∧ heap s' !! d = Some (selection_message id VUndef).
Proof.
  intros s. apply (selectFromReactInstance_emits s (VStr "") VUndef).
  discriminate.
Defined.

Lemma getIDForNode_cases (node : val) (s : State) :
  getIDForNode node s
  = match reactInternals s with
    | None => Ret VNull s
    | Some r =>
        if truthy (getReactElementFromNative r node)
        then getId (getReactElementFromNative r node) s
        else Ret VUndef s
    end.
Proof.
  unfold getIDForNode, bind, gets. destruct (reactInternals s) as [r|]; [|done].
  by destruct (truthy (getReactElementFromNative r node)).
Qed.

Lemma selectFromDOMNode_returns (node quiet : val) (s : State) :
  ∃ s', selectFromDOMNode node quiet s = Ret () s'.
Proof.
  unfold selectFromDOMNode. unfold bind at 1. rewrite getIDForNode_cases.
  destruct (reactInternals s) as [r|]; [|by eexists].
  destruct (truthy (getReactElementFromNative r node)) eqn:Hc;
    [|by eexists].
  destruct (getId_returns (getReactElementFromNative r node) s)
    as (i & s1 & Hg & _); [by intros Heq; rewrite Heq in Hc|].
  rewrite Hg. destruct (negb (truthy i)); [by eexists|].
  erewrite bind_Ret; [|apply selection_returns]. by eexists.
Qed.

(** X16.  [checkSelection] never throws and leaves [_prevSelected] equal to
    [$0]; a second [checkSelection], [$0] being what it was, does nothing
    at all. *)
Theorem checkSelection_settles (w : Selection) (s : State) :
  ∃ s',
    checkSelection w s = Ret (set_prevSelected (sel_0 w) w) s'
    ∧ checkSelection (set_prevSelected (sel_0 w) w) s'
      = Ret (set_prevSelected (sel_0 w) w) s'.
Proof.
  assert (Hagain : ∀ s', checkSelection (set_prevSelected (sel_0 w) w) s'
                         = Ret (set_prevSelected (sel_0 w) w) s').
  { intros s'. unfold checkSelection. simpl.
    by destruct (decide (sel_0 w ≠ sel_0 w)). }
  unfold checkSelection.
  destruct (decide (sel_0 w ≠ prevSelected w)) as [Hp|Hp].
  - destruct (decide (sel_0 w ≠ sel_node w)).
    + destruct (selectFromDOMNode_returns (sel_0 w) VUndef s) as (s' & Hs).
      exists s'. split; [|apply Hagain].
      erewrite bind_Ret; [|exact Hs]. done.
    + exists s. split; [done|apply Hagain].
  - exists s. split; [|apply Hagain].
    apply dec_stable in Hp. unfold ret. f_equal.
    destruct w. simpl in *. by rewrite Hp.
Qed.

(** X17.  A selection that comes from the frontend is not sent back: after
    [putSelectedNode], which stores the native node of the Identifier in
    [$node], a [checkSelection] that finds this node in [$0] emits nothing
    and changes nothing in the Backend. *)
Theorem checkSelection_no_echo (w : Selection) (s : State) (id : val) :
  sel_0 w = node_of s id →
  ∃ w1,
    putSelectedNode id w s = Ret w1 s
    ∧ sel_node w1 = node_of s id
    ∧ checkSelection w1 s = Ret (set_prevSelected (sel_0 w1) w1) s.
Proof.
  intros H0. exists (set_sel_node (node_of s id) w). split.
  { unfold putSelectedNode. erewrite bind_Ret; [|apply getNodeForID_node_of].
    done. }
  split; [done|]. unfold checkSelection. simpl. rewrite H0.
  destruct (decide (node_of s id ≠ prevSelected w)) as [Hp|Hp].
  - by destruct (decide (node_of s id ≠ node_of s id)).
  - apply dec_stable in Hp. unfold ret, set_prevSelected. simpl.
    by rewrite Hp.
Qed.

Lemma checkSelection_no_echo_witness :
  let w := {| prevSelected := VNull; sel_0 := VRef 2%nat;
              sel_node := VNull; sel_inst := VNull |} in
  ∃ w1,
    putSelectedNode (VStr "3a9e01c2b7") w adapted = Ret w1 adapted
    ∧ sel_node w1 = node_of adapted (VStr "3a9e01c2b7")
    ∧ checkSelection w1 adapted
      = Ret (set_prevSelected (sel_0 w1) w1) adapted.
Proof.
  intros w. apply (checkSelection_no_echo w adapted (VStr "3a9e01c2b7")).
  vm_compute. reflexivity.
Defined.

(** X18.  [putSelectedInstance] on an Identifier that the Node Store does
    not know throws, the updater of [undefined] being read; on a snapshot
    without updater it stores [null] in [$inst]. *)
Theorem putSelectedInstance_edges (w : Selection) (s : State) (id : val)
    (d : loc) (snapshot : gmap string val) :
  (nodes s !! id = None → putSelectedInstance id w s = Throw s)
  ∧ (nodes s !! id = Some (VRef d) →
     heap s !! d = Some (CObj snapshot) →
     snapshot !! "updater" = None →
     putSelectedInstance id w s = Ret (set_sel_inst VNull w) s).
Proof.
  split.
  - intros Hid. unfold putSelectedInstance, bind, nodes_get, gets.
    by rewrite Hid.
  - intros Hid Hd Hu. unfold putSelectedInstance, bind, nodes_get, gets.
    rewrite Hid. simpl. rewrite Hd. simpl. by rewrite Hu.
Qed.

Lemma putSelectedInstance_edges_witness :
  let w := {| prevSelected := VNull; sel_0 := VNull;
              sel_node := VNull; sel_inst := VRef 0%nat |} in
  putSelectedInstance (VStr "stale") w mounted_plain = Throw mounted_plain
  ∧ putSelectedInstance (VStr "3a9e01c2b7") w mounted_plain
    = Ret (set_sel_inst VNull w) mounted_plain.
Proof.
  intros w.
  destruct (putSelectedInstance_edges w mounted_plain (VStr "stale") 5%nat ∅)
    as [H1 _].
  destruct (putSelectedInstance_edges w mounted_plain (VStr "3a9e01c2b7")
              5%nat
              {[ "name" := VStr "Bar"; "type" := VStr "div";
                 "props" := VRef 6%nat ]}) as [_ H2].
  split.
  - apply H1. vm_compute. reflexivity.
  - apply H2; vm_compute; reflexivity.
Defined.

(** X19.  With an adapter, [selectFromDOMNode] does nothing when the
    adapter has no component for the node; when it has one whose Identifier
    is truthy, it does what [selectFromReactInstance] does for this
    component. *)
Theorem selectFromDOMNode_resolves
    (s : State) (r : Internals) (node quiet : val) :
  reactInternals s = Some r →
  (truthy (getReactElementFromNative r node) = false →
   selectFromDOMNode node quiet s = Ret () s)
  ∧ (truthy (getReactElementFromNative r node) = true →
     ∀ i s1,
       getId (getReactElementFromNative r node) s = Ret i s1 →
       truthy i = true →
       selectFromDOMNode node quiet s
       = selectFromReactInstance (getReactElementFromNative r node) quiet s).
Proof.
  intros Hr. split.
  - intros Hc. unfold selectFromDOMNode. unfold bind at 1.
    by rewrite getIDForNode_cases, Hr, Hc.
  - intros Hc i s1 Hg Hi. unfold selectFromDOMNode, selectFromReactInstance.
    unfold bind at 1. rewrite getIDForNode_cases, Hr, Hc, Hg.
    unfold bind at 2. rewrite Hg, Hi. reflexivity.
Qed.

Lemma selectFromDOMNode_resolves_witness :
  let r := {| getNativeFromReactElement := fun _ => VRef 2%nat;
              getReactElementFromNative :=
                fun n => match n with VRef 2%nat => VRef 0%nat | _ => VUndef end |} in
  let s := set_internals (Some r) mounted in
  selectFromDOMNode (VRef 6%nat) VUndef s = Ret () s
  ∧ selectFromDOMNode (VRef 2%nat) VUndef s
    = selectFromReactInstance (VRef 0%nat) VUndef s.
Proof.
  intros r s.
  destruct (selectFromDOMNode_resolves s r (VRef 6%nat) VUndef eq_refl)
    as [H1 _].
  destruct (selectFromDOMNode_resolves s r (VRef 2%nat) VUndef eq_refl)
    as [_ H2].
  split; [by apply H1|].
  apply (H2 eq_refl (VStr "3a9e01c2b7") s); [|reflexivity].
  apply getId_known. vm_compute. reflexivity.
Defined.

(** ** The message of [highlight] *)

(** X20.  [highlight] on an Identifier whose native node resolves: if the
    Node Store has a snapshot for it, one [highlight] is emitted with a new
    object holding the node and the name and props of the snapshot; if the
    Node Store has none, it throws, the name of [undefined] being read. *)
Theorem highlight_resolved
    (s : State) (id : val) (d : loc) (snapshot : gmap string val) :
  truthy (node_of s id) = true →
  (nodes s !! id = None → ∃ s', highlight id s = Throw s')
  ∧ (nodes s !! id = Some (VRef d) →
     heap s !! d = Some (CObj snapshot) →
     ∃ s' e,
       highlight id s = Ret () s'
       ∧ same_registry s s'
       ∧ emitted s' = (emitted s ++ [e])%list
       ∧ ev_name e = "highlight"
       ∧ ev_data e = VRef (fresh (dom (heap s)))
       ∧ heap s'
         = <[fresh (dom (heap s)) :=
               highlight_message (node_of s id) snapshot]> (heap s)).
Proof.
  intros Hn. split.
  - intros Hid. unfold highlight. unfold bind at 1, nodes_get, gets.
    erewrite bind_Ret; [|apply getNodeForID_node_of]. rewrite Hn, Hid.
    erewrite bind_Ret; [|reflexivity].
    erewrite bind_Ret; [|apply write_prop_obj; simpl; apply lookup_insert_eq].
    by eexists.
  - intros Hid Hd.
    assert (Hfd : fresh (dom (heap s)) ≠ d).
    { intros Heq. destruct (is_fresh (dom (heap s))). rewrite Heq.
      apply elem_of_dom. by eexists. }
    eexists _, _. split.
    { unfold highlight. unfold bind at 1, nodes_get, gets.
      erewrite bind_Ret; [|apply getNodeForID_node_of]. rewrite Hn, Hid.
      erewrite bind_Ret; [|reflexivity].
      erewrite bind_Ret; [|apply write_prop_obj; simpl; apply lookup_insert_eq].
      erewrite bind_Ret.
      2:{ apply read_prop_obj. simpl. rewrite !lookup_insert_ne by done.
          exact Hd. }
      erewrite bind_Ret; [|apply write_prop_obj; simpl; apply lookup_insert_eq].
      erewrite bind_Ret.
      2:{ apply read_prop_obj. simpl. rewrite !lookup_insert_ne by done.
          exact Hd. }
      erewrite bind_Ret; [|apply write_prop_obj; simpl; apply lookup_insert_eq].
      reflexivity. }
    simpl. split; [done|]. split; [done|]. split; [done|]. split; [done|].
    by rewrite !insert_insert_eq.
Qed.

Lemma highlight_resolved_witness :
  (∃ s', highlight (VStr "3a9e01c2b7") rooted = Throw s')
  ∧ ∃ s' e,
      highlight (VStr "3a9e01c2b7") adapted = Ret () s'
      ∧ same_registry adapted s'
      ∧ emitted s' = (emitted adapted ++ [e])%list
      ∧ ev_name e = "highlight"
      ∧ ev_data e = VRef (fresh (dom (heap adapted)))
      ∧ heap s'
        = <[fresh (dom (heap adapted)) :=
              highlight_message (node_of adapted (VStr "3a9e01c2b7"))
                {[ "name" := VStr "Foo"; "type" := VStr "class";
                   "props" := VRef 2%nat; "updater" := VRef 3%nat ]}]>
            (heap adapted).
Proof.
  split.
  - destruct (highlight_resolved rooted (VStr "3a9e01c2b7") 0%nat ∅)
      as [H _]; [vm_compute; reflexivity|].
    apply H. vm_compute. reflexivity.
  - apply (highlight_resolved adapted (VStr "3a9e01c2b7") 1%nat
             {[ "name" := VStr "Foo"; "type" := VStr "class";
                "props" := VRef 2%nat; "updater" := VRef 3%nat ]});
      vm_compute; reflexivity.
Defined.
